(** * dd-trace-go: the tracer's worker, queues and span factory

    A shallow embedding of [ddtrace/tracer/tracer.go].  Goroutine-level
    operations are functions on an explicit machine state (the [tracer]
    struct, the heap of spans and span contexts, and a log of the calls made
    to external collaborators); an operation either returns or parks on a
    channel.  Mutexes are not modelled: every operation is read as running
    alone from its first line to its last.

    Types and helpers that tracer.go uses but that are declared in other
    files of the package (span, spanContext, payload, tracerError, config,
    SetTag, newSpanContext, logErrors) are modelled from the specification
    and marked as such. *)

From Stdlib Require Import ZArith String List PrimFloat Lia.
From stdpp Require Import base option gmap strings list pretty.

Open Scope string_scope.
Open Scope Z_scope.
Open Scope list_scope.

(** ** Channels *)

(** A buffered Go channel: the queued elements, oldest first, and the
    capacity given to [make]. *)
Record chan (A : Type) : Type := mkChan {
  chan_buf : list A;
  chan_cap : nat;
}.
Arguments mkChan {A} _ _.
Arguments chan_buf {A} _.
Arguments chan_cap {A} _.

(** [make(chan A, n)] *)
Definition make_chan {A : Type} (n : nat) : chan A := mkChan [] n.

(** [len(c)] and [cap(c)] *)
Definition chan_len {A : Type} (c : chan A) : nat := length (chan_buf c).

(** The send case of a [select] that has a [default]: the element is queued
    when the buffer has room, otherwise the case is not ready. *)
Definition try_send {A : Type} (x : A) (c : chan A) : option (chan A) :=
  if decide (chan_len c < chan_cap c)%nat
  then Some (mkChan (chan_buf c ++ [x]) (chan_cap c))
  else None.

(** The receive case of a [select]: ready when an element is queued. *)
Definition try_recv {A : Type} (c : chan A) : option (A * chan A) :=
  match chan_buf c with
  | x :: rest => Some (x, mkChan rest (chan_cap c))
  | [] => None
  end.

(** ** Internal error records *)

(** Modelled from the spec: the kind tag of an internal error record, one
    per failure of the taxonomy that tracer.go reports. *)
Inductive errorKind : Type :=
| errorTraceChanFull   (* ingestion overflow *)
| errorEncoding        (* the payload rejected a merge *)
| errorTransport.      (* the send to the collector failed *)

(** Modelled from the spec: the internal error record declared outside
    tracer.go, "a kind tag plus a human-readable message and, where relevant,
    a count". *)
Record tracerError : Type := mkTracerError {
  err_kind : errorKind;
  err_count : option nat;
  err_msg : string;
}.

(** Modelled from the spec: [traceBufferError], declared outside tracer.go;
    ingestion overflow is "reported with the dropped span count". *)
Definition traceBufferError (n : nat) : tracerError :=
  mkTracerError errorTraceChanFull (Some n) "trace buffer full".

(** Modelled from the spec: [encodingError], declared outside tracer.go; an
    encoding failure is "reported with the underlying cause". *)
Definition encodingError (cause : string) : tracerError :=
  mkTracerError errorEncoding None cause.

(** Modelled from the spec: [transportError], declared outside tracer.go; a
    transport failure is "reported with the pending item count". *)
Definition transportError (cause : string) (n : nat) : tracerError :=
  mkTracerError errorTransport (Some n) cause.

(** ** Spans and span contexts *)

(** The address of a heap object; a nil pointer is [None]. *)
Definition loc : Type := positive.

(** Modelled from the spec: the span struct declared outside tracer.go, with
    the fields tracer.go reads and writes.  [Meta] and [Metrics] are the
    string and numeric annotation maps; identifiers are unsigned 64-bit
    numbers and [Start] a signed nanosecond count, none of which enters
    arithmetic here.  The back-reference to the tracer is left out. *)
Record span : Type := mkSpan {
  Name : string;
  Service : string;
  Resource : string;
  Meta : gmap string string;
  Metrics : gmap string float;
  SpanID : Z;
  TraceID : Z;
  ParentID : Z;
  Start : Z;
  finished : bool;
  parent : option loc;
  context : option loc;
}.

(** Modelled from the spec: the span context declared outside tracer.go;
    it "carries TraceID, SpanID, a sampled boolean, and, only for in-process
    continuations, a non-owning back-reference to the originating Span and a
    reference to the parent's context". *)
Record spanContext : Type := mkSpanContext {
  traceID : Z;
  spanID : Z;
  sampled : bool;
  ctx_span : option loc;
  ctx_parent : option loc;
}.

(** Modelled from the spec: a value of the interface [ddtrace.SpanContext],
    declared outside tracer.go, as the type assertion in [StartSpan] sees it:
    either a (possibly nil) pointer to this tracer's own [spanContext], or a
    value of some other implementation. *)
Inductive SpanContextValue : Type :=
| OwnContext (c : option loc)
| ForeignContext.

(** Modelled from the spec: a tag value ([interface{}] in the source), which
    lands in the string tags or in the numeric metrics. *)
Inductive tagValue : Type :=
| TagString (s : string)
| TagNumber (f : float).

(** Modelled from the spec: [ddtrace.StartSpanConfig], declared outside
    tracer.go, holding the "explicit start time, parent context, initial
    tags".  The zero [StartTime] is [None]; [Tags] lists the entries of the
    map in the order [range] visits them. *)
Record StartSpanConfig : Type := mkStartSpanConfig {
  cfg_Parent : option SpanContextValue;
  cfg_StartTime : option Z;
  cfg_Tags : list (string * tagValue);
}.

Definition StartSpanOption : Type := StartSpanConfig -> StartSpanConfig.

(** ** Payload *)

(** Modelled from the spec: what the encoder behind [payload.push] makes of
    a trace, the number of bytes it appends or the error it reports. *)
Definition encoder : Type := list span -> Z + string.

(** Modelled from the spec: the send buffer declared outside tracer.go; it
    "accumulates pushed trace sequences; tracks cumulative encoded byte size
    and item (trace) count". *)
Record payload : Type := mkPayload {
  p_traces : list (list span);
  p_bytes : Z;
}.

(** Modelled from the spec: [newPayload], the empty send buffer. *)
Definition newPayload : payload := mkPayload [] 0.

(** Modelled from the spec: [itemCount], the number of traces pushed. *)
Definition payload_itemCount (p : payload) : nat := length (p_traces p).

(** Modelled from the spec: [size], the cumulative encoded byte size. *)
Definition payload_size (p : payload) : Z := p_bytes p.

(** Modelled from the spec: "reset clears it after a successful transport
    send". *)
Definition payload_reset (p : payload) : payload := newPayload.

(** Modelled from the spec: "push can fail (encoding error) without mutating
    size/count". *)
Definition payload_push (enc : encoder) (trace : list span) (p : payload)
  : payload * option string :=
  match enc trace with
  | inl n => (mkPayload (p_traces p ++ [trace]) (p_bytes p + n), None)
  | inr e => (p, Some e)
  end.

(** ** Configuration and collaborators *)

(** Modelled from the spec: the sampler interface, declared outside
    tracer.go, "[Sample(span) -> bool]; optional extended capability
    [Rate() -> float64]".  [Sample] decides from the span it is shown; [Rate]
    is present when the sampler is also a [RateSampler]. *)
Record Sampler : Type := mkSampler {
  Sample : span -> bool;
  Rate : option float;
}.

(** Modelled from the spec: the transport interface, declared outside
    tracer.go, "[send(buffer) -> (response, error)]".  The error returned
    (nil is [None]) may depend on the payloads sent before; the response is
    discarded by the caller, and the buffer is read, not changed. *)
Record transport : Type := mkTransport {
  send : list payload -> payload -> option string;
}.

(** Modelled from the spec: the fields of the configuration that tracer.go
    consumes.  [globalTags] lists the entries in the order [range] visits
    them. *)
Record config : Type := mkConfig {
  serviceName : string;
  globalTags : list (string * tagValue);
  debug : bool;
  sampler : Sampler;
  cfg_transport : transport;
}.

(** ** The tracer and the machine state *)

(** The [tracer] struct.  [flushAllReq] and [exitReq] are unbuffered: they
    hold nothing between a send and its receive and have no field here.
    [stopped] tells whether that channel has been closed; [syncPush] whether
    the test-only channel is non-nil. *)
Record tracer : Type := mkTracer {
  t_config : config;
  t_payload : payload;
  flushTracesReq : chan unit;
  flushErrorsReq : chan unit;
  traceBuffer : chan (list loc);
  errorBuffer : chan tracerError;
  stopped : bool;
  syncPush : bool;
}.

(** Calls that leave the process, in the order they were made. *)
Inductive event : Type :=
| EvSend (p : payload)                   (* transport.send(payload) *)
| EvPrintf (size : Z) (count : nat)      (* the debug line before a send *)
| EvLogErrors (errs : list tracerError)  (* records drained by logErrors *)
| EvSample (l : loc) (s : span)          (* sampler.Sample(span) *)
| EvExitReq.                             (* a value handed over on exitReq *)

Record state : Type := mkState {
  tr : tracer;
  spans : gmap loc span;
  contexts : gmap loc spanContext;
  events : list event;
}.

(** Where a goroutine can park. *)
Inductive wait : Type :=
| RecvSyncPush    (* <-t.syncPush *)
| SendSyncPush.   (* t.syncPush <- struct{}{} *)

(** What a call does to the machine: it returns, or its goroutine parks. *)
Inductive outcome : Type :=
| Returns (s : state)
| Blocks (s : state) (w : wait).

Definition proc : Type := state -> outcome.

Definition outcome_state (o : outcome) : state :=
  match o with
  | Returns s => s
  | Blocks s _ => s
  end.

Definition andThen (p q : proc) : proc := fun s =>
  match p s with
  | Returns s' => q s'
  | Blocks s' w => Blocks s' w
  end.

Notation "p ;;; q" := (andThen p q) (at level 61, left associativity).

(** *** Field updates *)

Definition set_payload (p : payload) (t : tracer) : tracer :=
  mkTracer (t_config t) p (flushTracesReq t) (flushErrorsReq t)
           (traceBuffer t) (errorBuffer t) (stopped t) (syncPush t).

Definition set_flushTracesReq (c : chan unit) (t : tracer) : tracer :=
  mkTracer (t_config t) (t_payload t) c (flushErrorsReq t)
           (traceBuffer t) (errorBuffer t) (stopped t) (syncPush t).

Definition set_flushErrorsReq (c : chan unit) (t : tracer) : tracer :=
  mkTracer (t_config t) (t_payload t) (flushTracesReq t) c
           (traceBuffer t) (errorBuffer t) (stopped t) (syncPush t).

Definition set_traceBuffer (c : chan (list loc)) (t : tracer) : tracer :=
  mkTracer (t_config t) (t_payload t) (flushTracesReq t) (flushErrorsReq t)
           c (errorBuffer t) (stopped t) (syncPush t).

Definition set_errorBuffer (c : chan tracerError) (t : tracer) : tracer :=
  mkTracer (t_config t) (t_payload t) (flushTracesReq t) (flushErrorsReq t)
           (traceBuffer t) c (stopped t) (syncPush t).

Definition close_stopped (t : tracer) : tracer :=
  mkTracer (t_config t) (t_payload t) (flushTracesReq t) (flushErrorsReq t)
           (traceBuffer t) (errorBuffer t) true (syncPush t).

Definition upd_tr (f : tracer -> tracer) (s : state) : state :=
  mkState (f (tr s)) (spans s) (contexts s) (events s).

Definition upd_spans (f : gmap loc span -> gmap loc span) (s : state) : state :=
  mkState (tr s) (f (spans s)) (contexts s) (events s).

Definition upd_contexts
    (f : gmap loc spanContext -> gmap loc spanContext) (s : state) : state :=
  mkState (tr s) (spans s) (f (contexts s)) (events s).

Definition emit (e : event) (s : state) : state :=
  mkState (tr s) (spans s) (contexts s) (events s ++ [e]).

(** The payloads handed to the transport so far. *)
Definition sent_payloads (evs : list event) : list payload :=
  omap (fun e => match e with EvSend p => Some p | _ => None end) evs.

(** The spans shown to the sampler so far. *)
Definition sampler_calls (evs : list event) : list (loc * span) :=
  omap (fun e => match e with EvSample l sp => Some (l, sp) | _ => None end) evs.

(** The number of values handed over on [exitReq] so far. *)
Definition exit_requests (evs : list event) : nat :=
  length (omap (fun e => match e with EvExitReq => Some tt | _ => None end) evs).

(** ** Constants of tracer.go *)

Definition payloadSizeLimit : Z := 5 * 1024 * 1024.
Definition traceBufferSize : nat := 200.
Definition errorBufferSize : nat := 200.
Definition sampleRateMetricKey : string := "_sample_rate".

(** [newTracer], from the configuration the options produce; the worker it
    starts is running for as long as [stopped] is open. *)
Definition newTracer (c : config) : tracer :=
  mkTracer c newPayload (make_chan 1) (make_chan 1)
           (make_chan traceBufferSize) (make_chan errorBufferSize)
           false false.

(** ** Queues *)

(** [select { case c <- x: default: }] on one of the tracer's channels. *)
Definition select_send_or_skip {A : Type}
    (get : tracer -> chan A) (set : chan A -> tracer -> tracer)
    (x : A) (t : tracer) : tracer :=
  match try_send x (get t) with
  | Some c => set c t
  | None => t
  end.

Definition pushError (err : tracerError) : proc := fun s =>
  let eb := errorBuffer (tr s) in
  let s1 :=
    if decide (chan_cap eb / 2 <= chan_len eb)%nat
    then upd_tr (select_send_or_skip flushErrorsReq set_flushErrorsReq tt) s
    else s in
  Returns (upd_tr (select_send_or_skip errorBuffer set_errorBuffer err) s1).

Definition pushTrace (trace : list loc) : proc := fun s =>
  let o :=
    match try_send trace (traceBuffer (tr s)) with
    | Some c => Returns (upd_tr (set_traceBuffer c) s)
    | None => pushError (traceBufferError (length trace)) s
    end in
  match o with
  | Returns s' => if syncPush (tr s') then Blocks s' RecvSyncPush else Returns s'
  | Blocks s' w => Blocks s' w
  end.

(** ** Flushing *)

Definition flushTraces : proc := fun s =>
  let p := t_payload (tr s) in
  if decide (payload_itemCount p = 0)%nat then Returns s
  else
    let s1 :=
      if debug (t_config (tr s))
      then emit (EvPrintf (payload_size p) (payload_itemCount p)) s
      else s in
    let err := send (cfg_transport (t_config (tr s1)))
                    (sent_payloads (events s1)) p in
    let s2 := emit (EvSend p) s1 in
    match err with
    | Some e => pushError (transportError e (payload_itemCount p)) s2
    | None => Returns (upd_tr (set_payload (payload_reset p)) s2)
    end.

(** Modelled from the spec: [logErrors], declared outside tracer.go; the
    flush-errors request is to "drain and log the Error Queue". *)
Definition logErrors (s : state) : state :=
  let eb := errorBuffer (tr s) in
  emit (EvLogErrors (chan_buf eb))
       (upd_tr (set_errorBuffer (mkChan [] (chan_cap eb))) s).

Definition flushErrors : proc := fun s => Returns (logErrors s).

Definition flush : proc := flushTraces ;;; flushErrors.

(** ** Span helpers *)

Definition set_Service (v : string) (sp : span) : span :=
  mkSpan (Name sp) v (Resource sp) (Meta sp) (Metrics sp) (SpanID sp)
         (TraceID sp) (ParentID sp) (Start sp) (finished sp) (parent sp)
         (context sp).

Definition set_TraceID (v : Z) (sp : span) : span :=
  mkSpan (Name sp) (Service sp) (Resource sp) (Meta sp) (Metrics sp)
         (SpanID sp) v (ParentID sp) (Start sp) (finished sp) (parent sp)
         (context sp).

Definition set_ParentID (v : Z) (sp : span) : span :=
  mkSpan (Name sp) (Service sp) (Resource sp) (Meta sp) (Metrics sp)
         (SpanID sp) (TraceID sp) v (Start sp) (finished sp) (parent sp)
         (context sp).

Definition set_parent (v : option loc) (sp : span) : span :=
  mkSpan (Name sp) (Service sp) (Resource sp) (Meta sp) (Metrics sp)
         (SpanID sp) (TraceID sp) (ParentID sp) (Start sp) (finished sp) v
         (context sp).

Definition set_context (v : option loc) (sp : span) : span :=
  mkSpan (Name sp) (Service sp) (Resource sp) (Meta sp) (Metrics sp)
         (SpanID sp) (TraceID sp) (ParentID sp) (Start sp) (finished sp)
         (parent sp) v.

Definition set_Meta (v : gmap string string) (sp : span) : span :=
  mkSpan (Name sp) (Service sp) (Resource sp) v (Metrics sp) (SpanID sp)
         (TraceID sp) (ParentID sp) (Start sp) (finished sp) (parent sp)
         (context sp).

Definition set_Metrics (v : gmap string float) (sp : span) : span :=
  mkSpan (Name sp) (Service sp) (Resource sp) (Meta sp) v (SpanID sp)
         (TraceID sp) (ParentID sp) (Start sp) (finished sp) (parent sp)
         (context sp).

Definition set_sampled (v : bool) (c : spanContext) : spanContext :=
  mkSpanContext (traceID c) (spanID c) v (ctx_span c) (ctx_parent c).

(** Modelled from the spec: what [SetTag], declared outside tracer.go, does
    to a span: it files the value under its key in one of the span's
    "mutable annotation maps (string tags, numeric metrics)"; a later value
    replaces an earlier one under the same key. *)
Definition setTag (key : string) (v : tagValue) (sp : span) : span :=
  match v with
  | TagString x => set_Meta (<[key := x]> (Meta sp)) sp
  | TagNumber f => set_Metrics (<[key := f]> (Metrics sp)) sp
  end.

(** Modelled from the spec: [SetTag] on the span behind a pointer. *)
Definition SetTag (key : string) (v : tagValue) (l : loc) (s : state) : state :=
  upd_spans (alter (setTag key v) l) s.

(** Modelled from the spec: [newSpanContext(span, parent)], declared outside
    tracer.go, allocates a context that carries the span's identifiers, a
    back-reference to the span and the reference to the parent's context, and
    "inherits from the parent's context".  The spec leaves the flag of a
    context without parent open; [sample] overwrites it before [StartSpan]
    returns.  A nil or dangling span is a nil dereference ([None]). *)
Definition newSpanContext (l : loc) (parentCtx : option loc) (s : state)
  : option (loc * state) :=
  sp ← spans s !! l;
  let c := fresh (dom (contexts s)) in
  let inherited := parentCtx ≫= (fun pc => contexts s !! pc) in
  let flag := default true (sampled <$> inherited) in
  Some (c, upd_contexts
             (<[c := mkSpanContext (TraceID sp) (SpanID sp) flag (Some l) parentCtx]>)
             s).

(** What one call of [StartSpan] obtains from the runtime: the results of
    [now()], [random.Uint64()] and [os.Getpid()]. *)
Record ambient : Type := mkAmbient {
  now : Z;
  random_Uint64 : Z;
  Getpid : Z;
}.

Definition zeroStartSpanConfig : StartSpanConfig :=
  mkStartSpanConfig None None [].

(** Lines 206-211: the parent option counts only when it holds this tracer's
    own context type. *)
Definition resolveParent (opts : StartSpanConfig) : option loc :=
  match cfg_Parent opts with
  | Some (OwnContext c) => c
  | Some ForeignContext => None
  | None => None
  end.

(** Lines 214-225: the span defaults. *)
Definition spanDefaults (t : tracer) (operationName : string) (id startTime : Z)
  : span :=
  mkSpan operationName (serviceName (t_config t)) operationName ∅ ∅
         id id 0 startTime false None None.

(** The spans of a trace as the encoder reads them through their pointers. *)
Definition trace_spans (s : state) (trace : list loc) : list span :=
  omap (fun l => spans s !! l) trace.

(** The cases of the worker's [select] other than the exit request. *)
Inductive workerCase : Type :=
| CaseTrace         (* trace := <-t.traceBuffer *)
| CaseTick          (* <-ticker.C *)
| CaseFlushAll      (* done := <-t.flushAllReq *)
| CaseFlushTraces   (* <-t.flushTracesReq *)
| CaseFlushErrors.  (* <-t.flushErrorsReq *)

Section Tracer.

(** Declared outside tracer.go and left open here: the encoder behind
    [payload.push], the key of the sampling-priority metric, and the key of
    the process-identifier tag ([ext.Pid]). *)
Variable enc : encoder.
Variable samplingPriorityKey : string.
Variable ext_Pid : string.

(** ** The worker *)

Definition pushPayload (trace : list loc) : proc := fun s =>
  let '(p, err) := payload_push enc (trace_spans s trace) (t_payload (tr s)) in
  let merged : proc := fun s0 =>
    match err with
    | Some e => pushError (encodingError e) (upd_tr (set_payload p) s0)
    | None => Returns (upd_tr (set_payload p) s0)
    end in
  let eager : proc := fun s1 =>
    Returns
      (if decide (payloadSizeLimit < payload_size (t_payload (tr s1)))
       then upd_tr (select_send_or_skip flushTracesReq set_flushTracesReq tt) s1
       else s1) in
  let sync : proc := fun s2 =>
    if syncPush (tr s2) then Blocks s2 SendSyncPush else Returns s2 in
  (merged ;;; eager ;;; sync) s.

(** One turn of the worker's loop on a case other than the exit request.
    A receive case whose channel is empty is not ready and the turn does
    nothing.  In the test-only synchronous mode the hand-over at the end of
    [pushPayload] is taken to meet the waiting producer. *)
Definition worker_serve (c : workerCase) (s : state) : state :=
  match c with
  | CaseTrace =>
      match try_recv (traceBuffer (tr s)) with
      | Some (trace, q) =>
          outcome_state (pushPayload trace (upd_tr (set_traceBuffer q) s))
      | None => s
      end
  | CaseTick => outcome_state (flush s)
  | CaseFlushAll => outcome_state (flush s)
  | CaseFlushTraces =>
      match try_recv (flushTracesReq (tr s)) with
      | Some (_, q) => outcome_state (flushTraces (upd_tr (set_flushTracesReq q) s))
      | None => s
      end
  | CaseFlushErrors =>
      match try_recv (flushErrorsReq (tr s)) with
      | Some (_, q) => outcome_state (flushErrors (upd_tr (set_flushErrorsReq q) s))
      | None => s
      end
  end.

Definition worker_run (sched : list workerCase) (s : state) : state :=
  fold_left (fun s0 c => worker_serve c s0) sched s.

(** The exit case: one full flush, then the worker returns and the deferred
    [close(t.stopped)] runs. *)
Definition worker_exit (s : state) : state :=
  upd_tr close_stopped (outcome_state (flush s)).

(** [Stop].  When [stopped] is open the send on [exitReq] waits for the
    worker's [select] to take it; [sched] lists the cases the worker serves
    before it does.  The receive from [stopped] then waits for the worker to
    exit. *)
Definition Stop (sched : list workerCase) : proc := fun s =>
  if stopped (tr s) then Returns s
  else Returns (worker_exit (emit EvExitReq (worker_run sched s))).

(** ** Sampling *)

Definition sample (l : loc) (s : state) : option state :=
  sp ← spans s !! l;
  let smp := sampler (t_config (tr s)) in
  let decision := Sample smp sp in
  let s1 := emit (EvSample l sp) s in
  c ← context sp;
  _ ← contexts s1 !! c;
  let s2 := upd_contexts (alter (set_sampled decision) c) s1 in
  if negb decision then Some s2
  else
    match Rate smp with
    | Some r =>
        if PrimFloat.ltb r 1
        then
          if finished sp then Some s2
          else Some (upd_spans
                       (alter (fun x => set_Metrics (<[sampleRateMetricKey := r]> (Metrics x)) x) l)
                       s2)
        else Some s2
    | None => Some s2
    end.

(** ** The span factory *)

(** Lines 226-248: linkage to the parent context [c]. *)
Definition linkParent (l c : loc) (s : state) : option state :=
  ctx ← contexts s !! c;
  match ctx_span ctx with
  | None =>
      Some (upd_spans
              (alter (fun sp => set_ParentID (spanID ctx) (set_TraceID (traceID ctx) sp)) l)
              s)
  | Some p =>
      par ← spans s !! p;
      let s1 :=
        upd_spans
          (alter (fun sp => set_parent (Some p)
                              (set_ParentID (SpanID par)
                                 (set_TraceID (TraceID par)
                                    (set_Service (Service par) sp)))) l)
          s in
      '(c', s2) ← newSpanContext l (context par) s1;
      let s3 := upd_spans (alter (set_context (Some c')) l) s2 in
      Some
        match Metrics par !! samplingPriorityKey with
        | Some v =>
            upd_spans
              (alter (fun sp => set_Metrics (<[samplingPriorityKey := v]> (Metrics sp)) sp) l)
              s3
        | None => s3
        end
  end.

(** The test of line 249, [context == nil || context.span == nil]. *)
Definition isProcessRoot (ctx : option loc) (s : state) : option bool :=
  match ctx with
  | None => Some true
  | Some c => x ← contexts s !! c; Some (bool_decide (ctx_span x = None))
  end.

(** Lines 250-253: a fresh context, the process-identifier tag, sampling. *)
Definition initRoot (l : loc) (io : ambient) (s : state) : option state :=
  '(c, s1) ← newSpanContext l None s;
  let s2 := upd_spans (alter (set_context (Some c)) l) s1 in
  sample l (SetTag ext_Pid (TagString (pretty (Getpid io))) l s2).

(** Lines 200-205: the explicit start time, else the current time. *)
Definition resolveStartTime (opts : StartSpanConfig) (io : ambient) : Z :=
  match cfg_StartTime opts with
  | None => now io
  | Some t => t
  end.

(** Lines 196-254: the span as it stands before the start-option and global
    tags are applied. *)
Definition startSpanCore (operationName : string) (opts : StartSpanConfig)
    (io : ambient) (s : state) : option (loc * state) :=
  let startTime := resolveStartTime opts io in
  let ctx := resolveParent opts in
  let id := random_Uint64 io in
  let l := fresh (dom (spans s)) in
  let s0 := upd_spans (<[l := spanDefaults (tr s) operationName id startTime]>) s in
  s1 ← match ctx with
       | Some c => linkParent l c s0
       | None => Some s0
       end;
  root ← isProcessRoot ctx s1;
  s2 ← (if root : bool then initRoot l io s1 else Some s1);
  Some (l, s2).

(** Lines 255-262. *)
Definition applyTags (tags : list (string * tagValue)) (l : loc) (s : state)
  : state :=
  fold_left (fun s0 kv => SetTag (fst kv) (snd kv) l s0) tags s.

Definition StartSpan (operationName : string) (options : list StartSpanOption)
    (io : ambient) (s : state) : option (loc * state) :=
  let opts := fold_left (fun o fn => fn o) options zeroStartSpanConfig in
  '(l, s2) ← startSpanCore operationName opts io s;
  Some (l, applyTags (globalTags (t_config (tr s))) l
             (applyTags (cfg_Tags opts) l s2)).

(** ** Vocabulary of the statements *)

(** A step that neither closes [stopped] nor hands anything over on
    [exitReq]. *)
Definition quiet (s s' : state) : Prop :=
  stopped (tr s') = stopped (tr s) ∧
  exit_requests (events s') = exit_requests (events s).

(** The fields that link a span into its trace. *)
Definition same_identity (a b : span) : Prop :=
  SpanID a = SpanID b ∧ TraceID a = TraceID b ∧ ParentID a = ParentID b ∧
  Service a = Service b ∧ parent a = parent b.

(** The local span a parent option leads to: none when no parent is given,
    when the parent is not this tracer's context type or is a nil pointer,
    and when the context has no span reference. *)
Definition localParent (opts : StartSpanConfig) (s : state) : option loc :=
  c ← resolveParent opts; ctx ← contexts s !! c; ctx_span ctx.

(** The pointers a parent option holds are valid. *)
Definition parent_valid (opts : StartSpanConfig) (s : state) : Prop :=
  match resolveParent opts with
  | None => True
  | Some c =>
      ∃ ctx, contexts s !! c = Some ctx ∧
             ∀ p, ctx_span ctx = Some p → is_Some (spans s !! p)
  end.

(** The number of times the sampler was shown a span of trace [tid]. *)
Definition sampling_decisions (tid : Z) (evs : list event) : nat :=
  length (filter (fun x => TraceID (snd x) = tid) (sampler_calls evs)).

(** ** Sample inputs *)

Definition halfSampler : Sampler := mkSampler (fun _ => true) (Some 0.5%float).

Definition okTransport : transport := mkTransport (fun _ _ => None).

Definition downTransport : transport :=
  mkTransport (fun _ _ => Some "connection refused").

Definition testConfig (tp : transport) : config :=
  mkConfig "svc" [] false halfSampler tp.

(** A machine just after [newTracer]: empty heap, nothing logged. *)
Definition idleState (tp : transport) : state :=
  mkState (newTracer (testConfig tp)) ∅ ∅ [].

(** An encoder that never fails and charges one byte per span. *)
Definition countingEncoder : encoder := fun spans => inl (Z.of_nat (length spans)).

(** The start option that names a parent context. *)
Definition withParent (c : SpanContextValue) : StartSpanOption := fun o =>
  mkStartSpanConfig (Some c) (cfg_StartTime o) (cfg_Tags o).

(** The start option that adds one tag. *)
Definition withTag (k : string) (v : tagValue) : StartSpanOption := fun o =>
  mkStartSpanConfig (cfg_Parent o) (cfg_StartTime o) (cfg_Tags o ++ [(k, v)]).

Definition firstCall : ambient := mkAmbient 1000 42 4711.
Definition secondCall : ambient := mkAmbient 2000 43 4711.

(** A context extracted from a carrier: trace 7, span 3, no local span. *)
Definition remoteContext : spanContext := mkSpanContext 7 3 true None None.

Definition remoteState : state :=
  mkState (newTracer (testConfig okTransport)) ∅ {[ 1%positive := remoteContext ]} [].

(** A local span of trace 10 with a sampling priority, and its context. *)
Definition parentSpan : span :=
  mkSpan "web.request" "front" "web.request" ∅ {[ "_prio" := 2%float ]}
         11 10 0 500 false None (Some 1%positive).

Definition parentContext : spanContext :=
  mkSpanContext 10 11 true (Some 1%positive) None.

Definition familyState : state :=
  mkState (newTracer (testConfig okTransport))
          {[ 1%positive := parentSpan ]} {[ 1%positive := parentContext ]} [].

(** Two requests that arrive with the same extracted context, each starting
    a span under it. *)
Definition twoRemoteRequests : option state :=
  '(_, s1) ← StartSpan "http.handler" [withParent (OwnContext (Some 1%positive))]
                       firstCall remoteState;
  '(_, s2) ← StartSpan "http.handler" [withParent (OwnContext (Some 1%positive))]
                       secondCall s1;
  Some s2.

(** ** Calls in sequence *)

(** How a call that hands a request to the worker ends: the worker took it
    and the call returned, or the worker has exited, nobody receives on the
    unbuffered channel, and the caller stays parked. *)
Inductive handover : Type :=
| Acknowledged (s : state)
| NoReceiver.

(** [forceFlush] (lines 316-320): the send on [flushAllReq] waits for the
    worker's [select] to take it, after the cases of [sched]; the worker
    then runs a full flush and answers on [done]. *)
Definition forceFlush (sched : list workerCase) (s : state) : handover :=
  if stopped (tr s) then NoReceiver
  else Acknowledged (worker_serve CaseFlushAll (worker_run sched s)).

(** What the goroutines of a process do to one tracer, one step at a time:
    producers push traces and errors, the worker takes a turn of its loop
    (lines 138-160) while it has not exited, and callers stop or force a
    flush. *)
Inductive call : Type :=
| CallPushTrace (trace : list loc)
| CallPushError (err : tracerError)
| CallWorker (c : workerCase)
| CallStop
| CallForceFlush.

(** The machine after one call; a call that parks leaves the machine as it
    is at the point where it parks. *)
Definition perform (c : call) (s : state) : state :=
  match c with
  | CallPushTrace trace => outcome_state (pushTrace trace s)
  | CallPushError err => outcome_state (pushError err s)
  | CallWorker w => if stopped (tr s) then s else worker_serve w s
  | CallStop => outcome_state (Stop [] s)
  | CallForceFlush =>
      match forceFlush [] s with
      | Acknowledged s' => s'
      | NoReceiver => s
      end
  end.

Definition run_calls (cs : list call) (s : state) : state :=
  fold_left (fun s0 c => perform c s0) cs s.

(** A channel holds no more than its capacity. *)
Definition within_capacity {A : Type} (c : chan A) : Prop :=
  (chan_len c <= chan_cap c)%nat.

(** The four buffered channels of the tracer are within the capacities
    [newTracer] gives them. *)
Definition queues_bounded (s : state) : Prop :=
  chan_cap (traceBuffer (tr s)) = traceBufferSize ∧
  chan_cap (errorBuffer (tr s)) = errorBufferSize ∧
  chan_cap (flushTracesReq (tr s)) = 1%nat ∧
  chan_cap (flushErrorsReq (tr s)) = 1%nat ∧
  within_capacity (traceBuffer (tr s)) ∧
  within_capacity (errorBuffer (tr s)) ∧
  within_capacity (flushTracesReq (tr s)) ∧
  within_capacity (flushErrorsReq (tr s)).

(** The traces of a queue the payload accepts, as it stores them, and the
    bytes they add. *)
Definition accepted_traces (s : state) (queue : list (list loc)) : list (list span) :=
  omap (fun trace => match enc (trace_spans s trace) with
                     | inl _ => Some (trace_spans s trace)
                     | inr _ => None
                     end) queue.

Definition accepted_bytes (s : state) (queue : list (list loc)) : Z :=
  foldr (fun trace acc => match enc (trace_spans s trace) with
                          | inl n => n + acc
                          | inr _ => acc
                          end) 0 queue.

(** The error records the payload's refusals produce, in queue order. *)
Definition refused_traces (s : state) (queue : list (list loc)) : list tracerError :=
  omap (fun trace => match enc (trace_spans s trace) with
                     | inl _ => None
                     | inr e => Some (encodingError e)
                     end) queue.

(** The string value the last entry under [k] gives, if a string entry
    under [k] exists. *)
Definition last_string_tag (k : string) (tags : list (string * tagValue))
  : option string :=
  foldl (fun acc kv => match snd kv with
                       | TagString v => if decide (fst kv = k) then Some v else acc
                       | TagNumber _ => acc
                       end) None tags.

(** A machine whose payload already holds one trace of one span. *)
Definition loadedState (tp : transport) : state :=
  mkState (set_payload (mkPayload [[parentSpan]] 10) (newTracer (testConfig tp)))
          {[ 1%positive := parentSpan ]} {[ 1%positive := parentContext ]} [].

(** A machine with one finished trace waiting in the ingestion queue. *)
Definition queuedState : state :=
  mkState (set_traceBuffer (mkChan [[1%positive]] traceBufferSize)
             (newTracer (testConfig okTransport)))
          {[ 1%positive := parentSpan ]} {[ 1%positive := parentContext ]} [].

(** A machine whose worker has exited. *)
Definition stoppedState : state := upd_tr close_stopped (idleState okTransport).

(** An encoder whose every trace takes six million bytes. *)
Definition bulkyEncoder : encoder := fun _ => inl 6000000.

(** ** Properties of the queues *)

#[local] Arguments Nat.div _ _ : simpl never.

(** Case analysis on the readiness tests of the channel operations. *)
Ltac chan_cases :=
  unfold select_send_or_skip, try_send, try_recv, chan_len in *; simpl in *;
  repeat (case_decide; simpl in *); try lia.

(** [pushError] returns, and touches nothing but the error queue and the
    flush-errors request channel. *)
Lemma pushError_frame (err : tracerError) (s : state) :
  ∃ s', pushError err s = Returns s' ∧
    t_config (tr s') = t_config (tr s) ∧
    t_payload (tr s') = t_payload (tr s) ∧
    flushTracesReq (tr s') = flushTracesReq (tr s) ∧
    traceBuffer (tr s') = traceBuffer (tr s) ∧
    stopped (tr s') = stopped (tr s) ∧
    syncPush (tr s') = syncPush (tr s) ∧
    spans s' = spans s ∧ contexts s' = contexts s ∧ events s' = events s.
Proof.
  eexists. split; [reflexivity|]. chan_cases; repeat split; reflexivity.
Qed.

(** What [pushError] leaves in the error queue: the record at the tail when
    there was room, the queue as it was otherwise. *)
Lemma pushError_errorBuffer (err : tracerError) (s s' : state) :
  pushError err s = Returns s' →
  chan_cap (errorBuffer (tr s')) = chan_cap (errorBuffer (tr s)) ∧
  chan_buf (errorBuffer (tr s')) =
    if decide (chan_len (errorBuffer (tr s)) < chan_cap (errorBuffer (tr s)))%nat
    then chan_buf (errorBuffer (tr s)) ++ [err]
    else chan_buf (errorBuffer (tr s)).
Proof.
  intros H. injection H as <-. chan_cases; split; reflexivity.
Qed.

(** What [pushError] leaves in the flush-errors request channel. *)
Lemma pushError_flushErrorsReq (err : tracerError) (s s' : state) :
  pushError err s = Returns s' →
  chan_cap (flushErrorsReq (tr s')) = chan_cap (flushErrorsReq (tr s)) ∧
  chan_buf (flushErrorsReq (tr s')) =
    if decide (chan_cap (errorBuffer (tr s)) / 2 <= chan_len (errorBuffer (tr s)))%nat
    then if decide (chan_len (flushErrorsReq (tr s)) < chan_cap (flushErrorsReq (tr s)))%nat
         then chan_buf (flushErrorsReq (tr s)) ++ [tt]
         else chan_buf (flushErrorsReq (tr s))
    else chan_buf (flushErrorsReq (tr s)).
Proof.
  intros H. injection H as <-. chan_cases; split; reflexivity.
Qed.

(** C6.  [pushError] never blocks.  When the error queue holds at least half
    its capacity, a flush-errors request is queued unless the request channel
    is full (one is pending); below half the channel is left alone.  The
    record is then appended to the error queue when there is room and dropped
    when the queue is full. *)
Theorem pushError_never_blocks (err : tracerError) (s : state) :
  ∃ s', pushError err s = Returns s' ∧
    let eb := errorBuffer (tr s) in
    let req := flushErrorsReq (tr s) in
    ((chan_cap eb <= 2 * chan_len eb)%nat →
       chan_buf (flushErrorsReq (tr s')) =
         if decide (chan_len req < chan_cap req)%nat
         then chan_buf req ++ [tt]
         else chan_buf req) ∧
    ((chan_len eb < chan_cap eb / 2)%nat →
       flushErrorsReq (tr s') = req) ∧
    chan_buf (errorBuffer (tr s')) =
      (if decide (chan_len eb < chan_cap eb)%nat
       then chan_buf eb ++ [err]
       else chan_buf eb).
Proof.
  destruct (pushError_frame err s) as (s' & Hrun & _).
  exists s'. split; [exact Hrun|].
  destruct (pushError_flushErrorsReq err s s' Hrun) as [Hcap Hreq].
  destruct (pushError_errorBuffer err s s' Hrun) as [_ Hbuf].
  cbv zeta. split; [|split].
  - intros Hhalf. rewrite Hreq.
    destruct (decide (chan_cap (errorBuffer (tr s)) / 2
                      <= chan_len (errorBuffer (tr s)))%nat) as [_|Hlow];
      [reflexivity|].
    exfalso. apply Hlow. apply Nat.Div0.div_le_upper_bound. lia.
  - intros Hlow.
    destruct (flushErrorsReq (tr s')) as [b c] eqn:Hs'.
    destruct (flushErrorsReq (tr s)) as [b0 c0] eqn:Hs.
    simpl in *. subst c.
    destruct (decide (chan_cap (errorBuffer (tr s)) / 2
                      <= chan_len (errorBuffer (tr s)))%nat); [lia|].
    subst b. reflexivity.
  - exact Hbuf.
Qed.

(** C5.  Outside the synchronous test mode [pushTrace] returns without
    parking.  With room in the ingestion queue the trace is appended to it
    and no error is recorded; with the queue full the trace is not queued and
    the overflow record, carrying the number of spans of the trace, goes
    through [pushError], which appends it to the error queue when that has
    room. *)
Theorem pushTrace_nonblocking (trace : list loc) (s : state) :
  syncPush (tr s) = false →
  ∃ s', pushTrace trace s = Returns s' ∧
    let tb := traceBuffer (tr s) in
    let eb := errorBuffer (tr s) in
    ((chan_len tb < chan_cap tb)%nat →
       chan_buf (traceBuffer (tr s')) = chan_buf tb ++ [trace] ∧
       errorBuffer (tr s') = eb) ∧
    ((chan_cap tb <= chan_len tb)%nat →
       traceBuffer (tr s') = tb ∧
       pushError (traceBufferError (length trace)) s = Returns s' ∧
       err_count (traceBufferError (length trace)) = Some (length trace) ∧
       ((chan_len eb < chan_cap eb)%nat →
          chan_buf (errorBuffer (tr s')) =
            chan_buf eb ++ [traceBufferError (length trace)])).
Proof.
  intros Hsync. unfold pushTrace.
  destruct (try_send trace (traceBuffer (tr s))) as [c|] eqn:Hsend.
  - simpl. rewrite Hsync. eexists. split; [reflexivity|].
    unfold try_send in Hsend. case_decide; [|discriminate].
    injection Hsend as <-. cbv zeta. simpl. split.
    + intros _. split; reflexivity.
    + unfold chan_len in *. lia.
  - destruct (pushError_frame (traceBufferError (length trace)) s)
      as (s' & Hrun & _ & _ & _ & Htb & _ & Hsp & _).
    rewrite Hrun, Hsp, Hsync. exists s'. split; [reflexivity|].
    unfold try_send in Hsend. case_decide; [discriminate|].
    cbv zeta. split; [lia|].
    intros _. repeat split; [exact Htb|].
    intros Hroom.
    destruct (pushError_errorBuffer _ _ _ Hrun) as [_ Hbuf].
    rewrite Hbuf. case_decide; [reflexivity|lia].
Qed.

(** In the synchronous test mode [pushTrace] parks on [syncPush] once the
    trace is queued or dropped. *)
Lemma pushTrace_sync_parks (trace : list loc) (s : state) :
  syncPush (tr s) = true →
  ∃ s', pushTrace trace s = Blocks s' RecvSyncPush.
Proof.
  intros Hsync. unfold pushTrace.
  destruct (try_send trace (traceBuffer (tr s))) as [c|].
  - simpl. rewrite Hsync. eexists. reflexivity.
  - destruct (pushError_frame (traceBufferError (length trace)) s)
      as (s' & Hrun & _ & _ & _ & _ & _ & Hsp & _).
    rewrite Hrun, Hsp, Hsync. eexists. reflexivity.
Qed.

(** ** Properties of flushing *)

(** The debug line is not a send. *)
Lemma sent_payloads_app (evs evs' : list event) :
  sent_payloads (evs ++ evs') = sent_payloads evs ++ sent_payloads evs'.
Proof.
  unfold sent_payloads. apply omap_app.
Qed.

(** C1, as the code has it.  With an empty payload [flushTraces] returns at
    once and nothing is sent.  With a non-empty payload it hands the payload
    to the transport exactly once; when the transport returns no error the
    payload is reset and its item count is 0; when it returns an error the
    payload is left as it was and the transport error, carrying the item
    count, goes through [pushError], which appends it to the error queue when
    that has room. *)
Theorem flushTraces_outcome (s : state) :
  let p := t_payload (tr s) in
  let reply := send (cfg_transport (t_config (tr s))) (sent_payloads (events s)) p in
  ∃ s', flushTraces s = Returns s' ∧
    (payload_itemCount p = 0%nat → s' = s) ∧
    (payload_itemCount p ≠ 0%nat →
       sent_payloads (events s') = sent_payloads (events s) ++ [p] ∧
       (reply = None →
          payload_itemCount (t_payload (tr s')) = 0%nat ∧
          errorBuffer (tr s') = errorBuffer (tr s)) ∧
       (∀ e, reply = Some e →
          t_payload (tr s') = p ∧
          let report := transportError e (payload_itemCount p) in
          err_count report = Some (payload_itemCount p) ∧
          chan_buf (errorBuffer (tr s')) =
            if decide (chan_len (errorBuffer (tr s)) < chan_cap (errorBuffer (tr s)))%nat
            then chan_buf (errorBuffer (tr s)) ++ [report]
            else chan_buf (errorBuffer (tr s)))).
Proof.
  cbv zeta. unfold flushTraces.
  destruct (decide (payload_itemCount (t_payload (tr s)) = 0%nat)) as [Hz|Hnz].
  { exists s. split; [reflexivity|]. split; [reflexivity|]. intros H; contradiction. }
  set (s1 := if debug (t_config (tr s))
             then emit (EvPrintf (payload_size (t_payload (tr s)))
                                 (payload_itemCount (t_payload (tr s)))) s
             else s).
  assert (Htr : tr s1 = tr s) by (subst s1; destruct (debug _); reflexivity).
  assert (Hsent : sent_payloads (events s1) = sent_payloads (events s)).
  { subst s1. destruct (debug _); [|reflexivity].
    simpl. rewrite sent_payloads_app. simpl. apply app_nil_r. }
  rewrite Htr, Hsent.
  destruct (send _ _ _) as [e|] eqn:Hreply.
  - destruct (pushError_frame
                (transportError e (payload_itemCount (t_payload (tr s))))
                (emit (EvSend (t_payload (tr s))) s1))
      as (s' & Hrun & _ & Hp & _ & _ & _ & _ & _ & _ & Hev).
    exists s'. split; [exact Hrun|]. split; [intros H; contradiction|].
    intros _. split; [|split].
    + rewrite Hev. simpl. rewrite sent_payloads_app, Hsent. reflexivity.
    + discriminate.
    + intros e' He'. injection He' as <-.
      split; [rewrite Hp; simpl; rewrite Htr; reflexivity|].
      split; [reflexivity|].
      destruct (pushError_errorBuffer _ _ _ Hrun) as [_ Hbuf].
      rewrite Hbuf. simpl. rewrite Htr. reflexivity.
  - eexists. split; [reflexivity|]. split; [intros H; contradiction|].
    intros _. split; [|split].
    + simpl. rewrite sent_payloads_app, Hsent. reflexivity.
    + intros _. simpl. rewrite Htr. split; reflexivity.
    + discriminate.
Qed.

Lemma quiet_refl (s : state) : quiet s s.
Proof. split; reflexivity. Qed.

Lemma quiet_trans (s1 s2 s3 : state) : quiet s1 s2 → quiet s2 s3 → quiet s1 s3.
Proof. intros [H1 H2] [H3 H4]. split; congruence. Qed.

Lemma quiet_upd_tr (f : tracer → tracer) (s : state) :
  (∀ t, stopped (f t) = stopped t) → quiet s (upd_tr f s).
Proof. intros Hf. split; [apply Hf|reflexivity]. Qed.

Lemma quiet_emit (e : event) (s : state) : e ≠ EvExitReq → quiet s (emit e s).
Proof.
  intros He. split; [reflexivity|]. unfold exit_requests. simpl.
  rewrite omap_app, length_app. destruct e; simpl; try lia. contradiction.
Qed.

Lemma pushError_quiet (err : tracerError) (s s' : state) :
  pushError err s = Returns s' → quiet s s'.
Proof.
  intros Hrun.
  destruct (pushError_frame err s) as (s0 & Hrun0 & _ & _ & _ & _ & Hst & _ & _ & _ & Hev).
  rewrite Hrun0 in Hrun. injection Hrun as <-.
  split; [exact Hst|rewrite Hev; reflexivity].
Qed.

Lemma flushTraces_quiet (s : state) :
  ∃ s', flushTraces s = Returns s' ∧ quiet s s'.
Proof.
  unfold flushTraces. case_decide; [exists s; split; [reflexivity|apply quiet_refl]|].
  set (s0 := if debug _ then _ else s).
  assert (H0 : quiet s s0).
  { subst s0. destruct (debug _); [apply quiet_emit; discriminate|apply quiet_refl]. }
  assert (H1 : quiet s (emit (EvSend (t_payload (tr s))) s0)).
  { eapply quiet_trans; [exact H0|apply quiet_emit; discriminate]. }
  destruct (send _ _ _) as [e|].
  - destruct (pushError_frame (transportError e (payload_itemCount (t_payload (tr s))))
                              (emit (EvSend (t_payload (tr s))) s0)) as (s' & Hrun & _).
    exists s'. split; [exact Hrun|].
    eapply quiet_trans; [exact H1|]. eapply pushError_quiet; exact Hrun.
  - eexists. split; [reflexivity|].
    eapply quiet_trans; [exact H1|]. apply quiet_upd_tr. reflexivity.
Qed.

Lemma logErrors_quiet (s : state) : quiet s (logErrors s).
Proof.
  unfold logErrors. eapply quiet_trans; [|apply quiet_emit; discriminate].
  apply quiet_upd_tr. reflexivity.
Qed.

(** [flush] returns, leaves the error queue empty, and is quiet. *)
Lemma flush_returns (s : state) :
  ∃ s', flush s = Returns s' ∧ chan_buf (errorBuffer (tr s')) = [] ∧ quiet s s'.
Proof.
  unfold flush, andThen, flushErrors.
  destruct (flushTraces_quiet s) as (s1 & Hrun & Hq). rewrite Hrun.
  eexists. split; [reflexivity|]. split; [reflexivity|].
  eapply quiet_trans; [exact Hq|apply logErrors_quiet].
Qed.

(** The closed form of [pushPayload]: the merge, the eager flush request,
    the synchronous hand-over. *)
Lemma pushPayload_unfold (trace : list loc) (s : state) :
  ∃ s1,
    match enc (trace_spans s trace) with
    | inl n =>
        s1 = upd_tr (set_payload
                       (mkPayload (p_traces (t_payload (tr s)) ++ [trace_spans s trace])
                                  (p_bytes (t_payload (tr s)) + n))) s
    | inr e =>
        pushError (encodingError e) (upd_tr (set_payload (t_payload (tr s))) s)
          = Returns s1
    end ∧
    let s2 :=
      if decide (payloadSizeLimit < payload_size (t_payload (tr s1)))
      then upd_tr (select_send_or_skip flushTracesReq set_flushTracesReq tt) s1
      else s1 in
    syncPush (tr s2) = syncPush (tr s) ∧
    pushPayload trace s =
      if syncPush (tr s) then Blocks s2 SendSyncPush else Returns s2.
Proof.
  unfold pushPayload, payload_push, andThen.
  destruct (enc (trace_spans s trace)) as [n|e].
  - eexists. split; [reflexivity|]. cbv zeta.
    assert (Hs : ∀ x, syncPush (tr (if decide (payloadSizeLimit < payload_size (t_payload (tr x)))
                       then upd_tr (select_send_or_skip flushTracesReq set_flushTracesReq tt) x
                       else x)) = syncPush (tr x)).
    { intros x. case_decide; [|reflexivity]. chan_cases; reflexivity. }
    split; [rewrite Hs; reflexivity|].
    rewrite Hs. reflexivity.
  - destruct (pushError_frame (encodingError e)
                (upd_tr (set_payload (t_payload (tr s))) s))
      as (s1 & Hrun & _ & _ & _ & _ & _ & Hsync & _).
    exists s1. split; [exact Hrun|]. rewrite Hrun. cbv zeta.
    assert (Hs : syncPush (tr (if decide (payloadSizeLimit < payload_size (t_payload (tr s1)))
                       then upd_tr (select_send_or_skip flushTracesReq set_flushTracesReq tt) s1
                       else s1)) = syncPush (tr s)).
    { simpl in Hsync. rewrite <- Hsync. case_decide; [|reflexivity].
      chan_cases; reflexivity. }
    split; [exact Hs|]. rewrite Hs. reflexivity.
Qed.

(** C8.  The state [pushPayload] leaves (it returns it outside the
    synchronous test mode).  A failed merge leaves the payload as it was and
    sends the encoding error through [pushError]; a successful one appends
    the trace.  Then, when the payload's size exceeds [payloadSizeLimit],
    which is 5 MiB, a flush-traces request is queued unless the request
    channel is full (one is pending); otherwise the channel is left alone. *)
Theorem pushPayload_merge (trace : list loc) (s : state) :
  let p := t_payload (tr s) in
  let req := flushTracesReq (tr s) in
  let s' := outcome_state (pushPayload trace s) in
  (syncPush (tr s) = false → pushPayload trace s = Returns s') ∧
  (∀ e, enc (trace_spans s trace) = inr e →
     t_payload (tr s') = p ∧
     chan_buf (errorBuffer (tr s')) =
       if decide (chan_len (errorBuffer (tr s)) < chan_cap (errorBuffer (tr s)))%nat
       then chan_buf (errorBuffer (tr s)) ++ [encodingError e]
       else chan_buf (errorBuffer (tr s))) ∧
  (∀ n, enc (trace_spans s trace) = inl n →
     p_traces (t_payload (tr s')) = p_traces p ++ [trace_spans s trace] ∧
     payload_size (t_payload (tr s')) = payload_size p + n ∧
     errorBuffer (tr s') = errorBuffer (tr s)) ∧
  chan_buf (flushTracesReq (tr s')) =
    (if decide (payloadSizeLimit < payload_size (t_payload (tr s')))
     then if decide (chan_len req < chan_cap req)%nat
          then chan_buf req ++ [tt]
          else chan_buf req
     else chan_buf req) ∧
  payloadSizeLimit = 5242880.
Proof.
  intros p req s'.
  destruct (pushPayload_unfold trace s) as (s1 & Hmerge & Hsync & Hrun).
  cbv zeta in Hsync, Hrun.
  set (s2 := if decide (payloadSizeLimit < payload_size (t_payload (tr s1)))
             then upd_tr (select_send_or_skip flushTracesReq set_flushTracesReq tt) s1
             else s1) in *.
  assert (Hs' : s' = s2).
  { subst s'. rewrite Hrun. destruct (syncPush (tr s)); reflexivity. }
  assert (Hp2 : t_payload (tr s2) = t_payload (tr s1)).
  { subst s2. case_decide; [|reflexivity]. chan_cases; reflexivity. }
  assert (He2 : errorBuffer (tr s2) = errorBuffer (tr s1)).
  { subst s2. case_decide; [|reflexivity]. chan_cases; reflexivity. }
  assert (Hreq1 : flushTracesReq (tr s1) = req).
  { subst req. destruct (enc (trace_spans s trace)) as [n|e].
    - subst s1. reflexivity.
    - destruct (pushError_frame (encodingError e)
                  (upd_tr (set_payload (t_payload (tr s))) s))
        as (s0 & Hrun0 & _ & _ & Hr & _).
      rewrite Hrun0 in Hmerge. injection Hmerge as <-. exact Hr. }
  rewrite Hs'. split; [|split; [|split; [|split]]].
  - intros Hoff. rewrite Hrun, Hoff. reflexivity.
  - intros e He. rewrite He in Hmerge.
    destruct (pushError_frame (encodingError e)
                (upd_tr (set_payload (t_payload (tr s))) s))
      as (s0 & Hrun0 & _ & Hp0 & _).
    destruct (pushError_errorBuffer _ _ _ Hrun0) as [_ Hbuf].
    rewrite Hrun0 in Hmerge. injection Hmerge as <-.
    rewrite Hp2, He2. split; [exact Hp0|exact Hbuf].
  - intros n Hn. rewrite Hn in Hmerge. rewrite Hp2, He2. subst s1.
    repeat split; reflexivity.
  - rewrite Hp2. subst s2. case_decide; [|rewrite Hreq1; reflexivity].
    rewrite <- Hreq1. chan_cases; reflexivity.
  - reflexivity.
Qed.

(** ** Properties of the worker and of [Stop] *)

Lemma pushPayload_quiet (trace : list loc) (s : state) :
  quiet s (outcome_state (pushPayload trace s)).
Proof.
  destruct (pushPayload_unfold trace s) as (s1 & Hmerge & _ & Hrun).
  cbv zeta in Hrun.
  assert (H1 : quiet s s1).
  { destruct (enc (trace_spans s trace)) as [n|e].
    - subst s1. apply quiet_upd_tr. reflexivity.
    - eapply quiet_trans; [|eapply pushError_quiet; exact Hmerge].
      apply quiet_upd_tr. reflexivity. }
  rewrite Hrun.
  assert (H2 : quiet s
                 (if decide (payloadSizeLimit < payload_size (t_payload (tr s1)))
                  then upd_tr (select_send_or_skip flushTracesReq set_flushTracesReq tt) s1
                  else s1)).
  { case_decide; [|exact H1]. eapply quiet_trans; [exact H1|].
    apply quiet_upd_tr. intros t. chan_cases; reflexivity. }
  destruct (syncPush (tr s)); exact H2.
Qed.

Lemma worker_serve_quiet (c : workerCase) (s : state) : quiet s (worker_serve c s).
Proof.
  destruct c; simpl.
  - destruct (try_recv (traceBuffer (tr s))) as [[trace q]|]; [|apply quiet_refl].
    eapply quiet_trans; [|apply pushPayload_quiet]. apply quiet_upd_tr. reflexivity.
  - destruct (flush_returns s) as (s' & -> & _ & Hq). exact Hq.
  - destruct (flush_returns s) as (s' & -> & _ & Hq). exact Hq.
  - destruct (try_recv (flushTracesReq (tr s))) as [[u q]|]; [|apply quiet_refl].
    destruct (flushTraces_quiet (upd_tr (set_flushTracesReq q) s)) as (s' & -> & Hq).
    eapply quiet_trans; [|exact Hq]. apply quiet_upd_tr. reflexivity.
  - destruct (try_recv (flushErrorsReq (tr s))) as [[u q]|]; [|apply quiet_refl].
    simpl. eapply quiet_trans; [|apply logErrors_quiet].
    apply quiet_upd_tr. reflexivity.
Qed.



(** A stopped tracer stays as it is under [Stop]. *)
Lemma Stop_stopped (sched : list workerCase) (s : state) :
  stopped (tr s) = true → Stop sched s = Returns s.
Proof. intros H. unfold Stop. rewrite H. reflexivity. Qed.

(** ** Properties of sampling *)

Lemma same_identity_refl (a : span) : same_identity a a.
Proof. repeat split. Qed.

Lemma same_identity_trans (a b c : span) :
  same_identity a b → same_identity b c → same_identity a c.
Proof.
  unfold same_identity. intros (?&?&?&?&?) (?&?&?&?&?).
  repeat split; congruence.
Qed.

(** What [sample] does to a span that has a context. *)
Lemma sample_run (l c : loc) (sp : span) (ctx : spanContext) (s : state) :
  spans s !! l = Some sp → context sp = Some c → contexts s !! c = Some ctx →
  ∃ s' sp', sample l s = Some s' ∧ spans s' !! l = Some sp' ∧
    same_identity sp sp' ∧ Meta sp' = Meta sp ∧ context sp' = context sp ∧
    events s' = events s ++ [EvSample l sp] ∧ tr s' = tr s ∧
    contexts s' = alter (set_sampled (Sample (sampler (t_config (tr s))) sp)) c (contexts s) ∧
    Metrics sp' =
      match Rate (sampler (t_config (tr s))) with
      | Some r =>
          if Sample (sampler (t_config (tr s))) sp && PrimFloat.ltb r 1 && negb (finished sp)
          then <[sampleRateMetricKey := r]> (Metrics sp)
          else Metrics sp
      | None => Metrics sp
      end.
Proof.
  intros Hl Hc Hctx. unfold sample. rewrite Hl. simpl. rewrite Hc. simpl.
  rewrite Hctx. simpl.
  destruct (Sample (sampler (t_config (tr s))) sp) eqn:Hdec; simpl.
  2:{ eexists _, sp. split; [reflexivity|]. simpl.
      repeat split; try assumption. destruct (Rate _); reflexivity. }
  destruct (Rate (sampler (t_config (tr s)))) as [r|] eqn:Hrate.
  2:{ eexists _, sp. split; [reflexivity|]. simpl. repeat split; assumption. }
  destruct (PrimFloat.ltb r 1) eqn:Hlt; simpl.
  2:{ eexists _, sp. split; [reflexivity|]. simpl. repeat split; assumption. }
  destruct (finished sp) eqn:Hfin; simpl.
  { eexists _, sp. split; [reflexivity|]. simpl. repeat split; assumption. }
  eexists _, _. split; [reflexivity|]. simpl.
  rewrite lookup_alter_eq, Hl. simpl. split; [reflexivity|].
  repeat split; simpl; try reflexivity; assumption.
Qed.

(** C7.  For a span that has a context, [sample] succeeds.  When the sampler
    has a rate [r] below 1, samples the span and the span is not finished,
    the span's metric [_sample_rate] is [r] afterwards.  When the rate is 1,
    or the span is not sampled, or the span is already finished, the span's
    metrics are as they were. *)
Theorem sample_applied_rate (l c : loc) (sp : span) (ctx : spanContext) (s : state) :
  spans s !! l = Some sp → context sp = Some c → contexts s !! c = Some ctx →
  let smp := sampler (t_config (tr s)) in
  ∃ s' sp', sample l s = Some s' ∧ spans s' !! l = Some sp' ∧
    (∀ r, Rate smp = Some r → PrimFloat.ltb r 1 = true →
          Sample smp sp = true → finished sp = false →
          Metrics sp' !! sampleRateMetricKey = Some r) ∧
    (Rate smp = Some 1%float → Metrics sp' = Metrics sp) ∧
    (Sample smp sp = false → Metrics sp' = Metrics sp) ∧
    (finished sp = true → Metrics sp' = Metrics sp).
Proof.
  intros Hl Hc Hctx smp.
  destruct (sample_run l c sp ctx s Hl Hc Hctx)
    as (s' & sp' & Hrun & Hl' & _ & _ & _ & _ & _ & _ & Hm).
  exists s', sp'. split; [exact Hrun|]. split; [exact Hl'|].
  fold smp in Hm. rewrite Hm. repeat split.
  - intros r Hr Hlt Hs Hf. rewrite Hr, Hs, Hlt, Hf. simpl.
    apply lookup_insert_eq.
  - intros Hr. rewrite Hr.
    destruct (Sample smp sp); destruct (finished sp); reflexivity.
  - intros Hs. rewrite Hs. destruct (Rate smp); reflexivity.
  - intros Hf. rewrite Hf. destruct (Rate smp); [|reflexivity].
    simpl. rewrite andb_false_r. reflexivity.
Qed.

(** ** Properties of the span factory *)

Lemma setTag_same (k : string) (v : tagValue) (sp : span) :
  same_identity sp (setTag k v sp).
Proof. destruct v; repeat split. Qed.

(** Tags reach the annotation maps only: the span keeps its links, and
    nothing else in the machine moves. *)
Lemma applyTags_run (tags : list (string * tagValue)) (l : loc) (s : state)
    (pre : span) :
  spans s !! l = Some pre →
  ∃ child, spans (applyTags tags l s) !! l = Some child ∧
    same_identity pre child ∧
    events (applyTags tags l s) = events s ∧
    tr (applyTags tags l s) = tr s.
Proof.
  unfold applyTags. revert s pre.
  induction tags as [|[k v] tags IH]; intros s pre Hl; simpl.
  - exists pre. repeat split. exact Hl.
  - destruct (IH (SetTag k v l s) (setTag k v pre)) as (child & Hc & Hid & Hev & Htr).
    { unfold SetTag. simpl. rewrite lookup_alter_eq, Hl. reflexivity. }
    exists child. split; [exact Hc|]. split; [|split; assumption].
    eapply same_identity_trans; [apply setTag_same|exact Hid].
Qed.

Lemma newSpanContext_run (l : loc) (pc : option loc) (s : state) (sp : span) :
  spans s !! l = Some sp →
  ∃ c x, newSpanContext l pc s = Some (c, upd_contexts (<[c := x]>) s) ∧
         contexts s !! c = None.
Proof.
  intros Hl. unfold newSpanContext. rewrite Hl. simpl.
  eexists _, _. split; [reflexivity|].
  apply not_elem_of_dom. apply is_fresh.
Qed.

(** The root branch: the span gets a context and the process-identifier
    tag, and is shown to the sampler once, after the tag is set. *)
Lemma initRoot_run (l : loc) (io : ambient) (s : state) (sp : span) :
  spans s !! l = Some sp →
  ∃ s' sp' seen, initRoot l io s = Some s' ∧
    spans s' !! l = Some sp' ∧ same_identity sp sp' ∧
    Meta sp' !! ext_Pid = Some (pretty (Getpid io)) ∧
    events s' = events s ++ [EvSample l seen] ∧
    same_identity sp seen ∧
    Meta seen !! ext_Pid = Some (pretty (Getpid io)) ∧
    tr s' = tr s.
Proof.
  intros Hl. unfold initRoot.
  destruct (newSpanContext_run l None s sp Hl) as (c & x & -> & Hfresh).
  simpl.
  set (seen := setTag ext_Pid (TagString (pretty (Getpid io)))
                 (set_context (Some c) sp)).
  destruct (sample_run l c seen x
              (SetTag ext_Pid (TagString (pretty (Getpid io))) l
                 (upd_spans (alter (set_context (Some c)) l)
                    (upd_contexts (<[c := x]>) s))))
    as (s' & sp' & Hrun & Hl' & Hid & Hmeta & _ & Hev & Htr & _).
  { unfold SetTag. simpl. rewrite !lookup_alter_eq, Hl. reflexivity. }
  { reflexivity. }
  { simpl. apply lookup_insert_eq. }
  exists s', sp', seen. split; [exact Hrun|]. split; [exact Hl'|].
  assert (Hseen : same_identity sp seen) by (subst seen; repeat split).
  split; [eapply same_identity_trans; eassumption|].
  split; [rewrite Hmeta; subst seen; simpl; apply lookup_insert_eq|].
  split; [exact Hev|]. split; [exact Hseen|].
  split; [subst seen; simpl; apply lookup_insert_eq|exact Htr].
Qed.

(** The new span's address is not one in use. *)
Lemma fresh_span_ne (s : state) (p : loc) :
  is_Some (spans s !! p) → fresh (dom (spans s)) ≠ p.
Proof.
  intros Hp Heq. apply elem_of_dom in Hp. rewrite <- Heq in Hp.
  exact (is_fresh (dom (spans s)) Hp).
Qed.

(** [startSpanCore] without a usable parent context: a process root that
    keeps the links of the span defaults. *)
Lemma startSpanCore_root (operationName : string) (opts : StartSpanConfig)
    (io : ambient) (s : state) :
  resolveParent opts = None →
  let sp0 := spanDefaults (tr s) operationName (random_Uint64 io)
                          (resolveStartTime opts io) in
  ∃ l s0 pre seen, startSpanCore operationName opts io s = Some (l, s0) ∧
    spans s0 !! l = Some pre ∧
    same_identity sp0 pre ∧ same_identity sp0 seen ∧
    Meta pre !! ext_Pid = Some (pretty (Getpid io)) ∧
    Meta seen !! ext_Pid = Some (pretty (Getpid io)) ∧
    events s0 = events s ++ [EvSample l seen] ∧
    tr s0 = tr s.
Proof.
  intros Hctx sp0. unfold startSpanCore. rewrite Hctx. simpl. fold sp0.
  set (l := fresh (dom (spans s))).
  destruct (initRoot_run l io (upd_spans (<[l := sp0]>) s) sp0)
    as (s' & sp' & seen & Hrun & Hl' & Hid & Hmeta & Hev & Hseen & Hms & Htr).
  { simpl. apply lookup_insert_eq. }
  rewrite Hrun. simpl. exists l, s', sp', seen.
  split; [reflexivity|]. repeat (split; [assumption|]). assumption.
Qed.

(** [startSpanCore] under a context that has no span reference: the span
    takes the context's identifiers and is a process root. *)
Lemma startSpanCore_remote (operationName : string) (opts : StartSpanConfig)
    (io : ambient) (s : state) (c : loc) (ctx : spanContext) :
  resolveParent opts = Some c →
  contexts s !! c = Some ctx → ctx_span ctx = None →
  let sp1 := set_ParentID (spanID ctx) (set_TraceID (traceID ctx)
               (spanDefaults (tr s) operationName (random_Uint64 io)
                             (resolveStartTime opts io))) in
  ∃ l s0 pre seen, startSpanCore operationName opts io s = Some (l, s0) ∧
    spans s0 !! l = Some pre ∧
    same_identity sp1 pre ∧ same_identity sp1 seen ∧
    Meta pre !! ext_Pid = Some (pretty (Getpid io)) ∧
    Meta seen !! ext_Pid = Some (pretty (Getpid io)) ∧
    events s0 = events s ++ [EvSample l seen] ∧
    tr s0 = tr s.
Proof.
  intros Hres Hctx Hspan sp1. unfold startSpanCore. rewrite Hres. simpl.
  set (l := fresh (dom (spans s))).
  unfold linkParent. simpl. rewrite Hctx. simpl. rewrite Hspan. simpl.
  rewrite Hctx. simpl. rewrite Hspan. simpl.
  destruct (initRoot_run l io
              (upd_spans (alter (fun sp => set_ParentID (spanID ctx)
                                             (set_TraceID (traceID ctx) sp)) l)
                 (upd_spans (<[l := spanDefaults (tr s) operationName
                                      (random_Uint64 io) (resolveStartTime opts io)]>) s))
              sp1)
    as (s' & sp' & seen & Hrun & Hl' & Hid & Hmeta & Hev & Hseen & Hms & Htr).
  { simpl. rewrite lookup_alter_eq, lookup_insert_eq. reflexivity. }
  rewrite Hrun. simpl. exists l, s', sp', seen.
  split; [reflexivity|]. repeat (split; [assumption|]). assumption.
Qed.

(** [startSpanCore] under a context that refers to a local span: the span
    is linked below that span and the sampler is not consulted. *)
Lemma startSpanCore_local (operationName : string) (opts : StartSpanConfig)
    (io : ambient) (s : state) (c p : loc) (ctx : spanContext) (par : span) :
  resolveParent opts = Some c →
  contexts s !! c = Some ctx → ctx_span ctx = Some p → spans s !! p = Some par →
  let sp1 := set_parent (Some p) (set_ParentID (SpanID par)
               (set_TraceID (TraceID par) (set_Service (Service par)
                  (spanDefaults (tr s) operationName (random_Uint64 io)
                                (resolveStartTime opts io))))) in
  ∃ l s0 pre, startSpanCore operationName opts io s = Some (l, s0) ∧
    spans s0 !! l = Some pre ∧
    same_identity sp1 pre ∧
    (∀ v, Metrics par !! samplingPriorityKey = Some v →
          Metrics pre !! samplingPriorityKey = Some v) ∧
    events s0 = events s ∧
    tr s0 = tr s.
Proof.
  intros Hres Hctx Hspan Hpar sp1. unfold startSpanCore. rewrite Hres. simpl.
  set (l := fresh (dom (spans s))).
  assert (Hne : l ≠ p) by (apply fresh_span_ne; rewrite Hpar; eauto).
  unfold linkParent. simpl. rewrite Hctx. simpl. rewrite Hspan. simpl.
  rewrite lookup_insert_ne by exact Hne. rewrite Hpar. simpl.
  unfold newSpanContext. simpl.
  rewrite lookup_alter_eq, lookup_insert_eq. simpl.
  set (c' := fresh (dom (contexts s))).
  assert (Hc' : c' ≠ c).
  { intros Heq. assert (Hin : c ∈ dom (contexts s)) by (apply elem_of_dom; eauto).
    rewrite <- Heq in Hin. exact (is_fresh (dom (contexts s)) Hin). }
  destruct (Metrics par !! samplingPriorityKey) as [v|] eqn:Hprio; simpl;
    rewrite lookup_insert_ne by exact Hc'; rewrite Hctx; simpl; rewrite Hspan; simpl.
  - eexists l, _, _. split; [reflexivity|]. simpl.
    rewrite !lookup_alter_eq, lookup_insert_eq. simpl.
    split; [reflexivity|]. split; [repeat split|].
    split; [|split; reflexivity].
    intros v' [= <-]. simpl. apply lookup_insert_eq.
  - eexists l, _, _. split; [reflexivity|]. simpl.
    rewrite !lookup_alter_eq, lookup_insert_eq. simpl.
    split; [reflexivity|]. split; [repeat split|].
    split; [|split; reflexivity].
    intros v' [=].
Qed.

Lemma sampler_calls_snoc (evs : list event) (l : loc) (sp : span) :
  sampler_calls (evs ++ [EvSample l sp]) = sampler_calls evs ++ [(l, sp)].
Proof. unfold sampler_calls. rewrite omap_app. reflexivity. Qed.

(** [StartSpan] is [startSpanCore] followed by the two rounds of tags, which
    keep the span's links and log nothing. *)
Lemma StartSpan_after_core (operationName : string) (options : list StartSpanOption)
    (io : ambient) (s s0 : state) (l : loc) (pre : span) :
  startSpanCore operationName (fold_left (fun o fn => fn o) options zeroStartSpanConfig) io s
    = Some (l, s0) →
  spans s0 !! l = Some pre →
  ∃ s' child, StartSpan operationName options io s = Some (l, s') ∧
    s' = applyTags (globalTags (t_config (tr s))) l
           (applyTags (cfg_Tags (fold_left (fun o fn => fn o) options zeroStartSpanConfig)) l s0) ∧
    spans s' !! l = Some child ∧ same_identity pre child ∧
    events s' = events s0.
Proof.
  intros Hcore Hpre. unfold StartSpan. rewrite Hcore. simpl.
  set (opts := fold_left (fun o fn => fn o) options zeroStartSpanConfig).
  destruct (applyTags_run (cfg_Tags opts) l s0 pre Hpre)
    as (mid & Hmid & Hid1 & Hev1 & _).
  destruct (applyTags_run (globalTags (t_config (tr s))) l _ mid Hmid)
    as (child & Hchild & Hid2 & Hev2 & _).
  eexists _, child. split; [reflexivity|]. split; [reflexivity|].
  split; [exact Hchild|]. split; [eapply same_identity_trans; eassumption|].
  congruence.
Qed.


(** C3.  A span started under a context that has no span reference gets the
    context's trace identifier as [TraceID] and the context's span identifier
    as [ParentID]. *)
Theorem StartSpan_remote_parent (operationName : string)
    (options : list StartSpanOption) (io : ambient) (s : state)
    (c : loc) (ctx : spanContext) :
  let opts := fold_left (fun o fn => fn o) options zeroStartSpanConfig in
  cfg_Parent opts = Some (OwnContext (Some c)) →
  contexts s !! c = Some ctx → ctx_span ctx = None →
  ∃ l s' child, StartSpan operationName options io s = Some (l, s') ∧
    spans s' !! l = Some child ∧
    TraceID child = traceID ctx ∧ ParentID child = spanID ctx.
Proof.
  intros opts Hparent Hctx Hspan.
  assert (Hres : resolveParent opts = Some c)
    by (unfold resolveParent; rewrite Hparent; reflexivity).
  destruct (startSpanCore_remote operationName opts io s c ctx Hres Hctx Hspan)
    as (l & s0 & pre & seen & Hcore & Hpre & Hid & _).
  destruct (StartSpan_after_core operationName options io s s0 l pre Hcore Hpre)
    as (s' & child & Hrun & _ & Hchild & Hid' & _).
  destruct Hid as (_ & Ht & Hp & _). destruct Hid' as (_ & Ht' & Hp' & _).
  simpl in Ht, Hp.
  exists l, s', child. repeat split; [assumption|assumption|congruence|congruence].
Qed.

(** C10.  A parent option that holds a context of another implementation is
    ignored.  The span is a process root: before the tags are applied it
    carries the process-identifier tag, and the sampler is shown it, with
    that tag set, exactly once; the span returned has no parent, [ParentID]
    0, and the freshly drawn identifier as both [SpanID] and [TraceID]. *)
Theorem StartSpan_foreign_parent (operationName : string)
    (options : list StartSpanOption) (io : ambient) (s : state) :
  let opts := fold_left (fun o fn => fn o) options zeroStartSpanConfig in
  cfg_Parent opts = Some ForeignContext →
  ∃ l s0 pre seen s' child,
    startSpanCore operationName opts io s = Some (l, s0) ∧
    spans s0 !! l = Some pre ∧
    Meta pre !! ext_Pid = Some (pretty (Getpid io)) ∧
    StartSpan operationName options io s = Some (l, s') ∧
    spans s' !! l = Some child ∧
    parent child = None ∧ ParentID child = 0 ∧
    SpanID child = random_Uint64 io ∧ TraceID child = SpanID child ∧
    sampler_calls (events s') = sampler_calls (events s) ++ [(l, seen)] ∧
    Meta seen !! ext_Pid = Some (pretty (Getpid io)) ∧
    ParentID seen = 0 ∧ TraceID seen = random_Uint64 io.
Proof.
  intros opts Hparent.
  assert (Hres : resolveParent opts = None)
    by (unfold resolveParent; rewrite Hparent; reflexivity).
  destruct (startSpanCore_root operationName opts io s Hres)
    as (l & s0 & pre & seen & Hcore & Hpre & Hid & Hseen & Hmeta & Hms & Hev & _).
  destruct (StartSpan_after_core operationName options io s s0 l pre Hcore Hpre)
    as (s' & child & Hrun & _ & Hchild & Hid' & Hev').
  destruct Hid as (Hi & Ht & Hp & _ & Hpa).
  destruct Hid' as (Hi' & Ht' & Hp' & _ & Hpa').
  destruct Hseen as (_ & Hts & Hps & _).
  simpl in Hi, Ht, Hp, Hpa, Hts, Hps.
  exists l, s0, pre, seen, s', child.
  repeat match goal with |- _ ∧ _ => split end;
    first [assumption | congruence
          | rewrite Hev', Hev; apply sampler_calls_snoc].
Qed.

(** C4, as the code has it.  With valid parent pointers [StartSpan] returns
    a span, and it consults the sampler exactly once, on the new span, when
    the parent option leads to no local span (no parent, a parent of another
    implementation, a nil context, or a context without span reference), and
    not at all when it leads to a local span. *)
Theorem StartSpan_samples_process_roots (operationName : string)
    (options : list StartSpanOption) (io : ambient) (s : state) :
  let opts := fold_left (fun o fn => fn o) options zeroStartSpanConfig in
  parent_valid opts s →
  ∃ l s', StartSpan operationName options io s = Some (l, s') ∧
    match localParent opts s with
    | None => ∃ seen, sampler_calls (events s') = sampler_calls (events s) ++ [(l, seen)]
    | Some _ => sampler_calls (events s') = sampler_calls (events s)
    end.
Proof.
  intros opts Hvalid. unfold parent_valid in Hvalid. unfold localParent.
  destruct (resolveParent opts) as [c|] eqn:Hres; simpl.
  - destruct Hvalid as (ctx & Hctx & Hp). rewrite Hctx. simpl.
    destruct (ctx_span ctx) as [p|] eqn:Hspan.
    + destruct (Hp p eq_refl) as [par Hpar].
      destruct (startSpanCore_local operationName opts io s c p ctx par Hres Hctx Hspan Hpar)
        as (l & s0 & pre & Hcore & Hpre & _ & _ & Hev & _).
      destruct (StartSpan_after_core operationName options io s s0 l pre Hcore Hpre)
        as (s' & child & Hrun & _ & _ & _ & Hev').
      exists l, s'. split; [exact Hrun|]. congruence.
    + destruct (startSpanCore_remote operationName opts io s c ctx Hres Hctx Hspan)
        as (l & s0 & pre & seen & Hcore & Hpre & _ & _ & _ & _ & Hev & _).
      destruct (StartSpan_after_core operationName options io s s0 l pre Hcore Hpre)
        as (s' & child & Hrun & _ & _ & _ & Hev').
      exists l, s'. split; [exact Hrun|]. exists seen.
      rewrite Hev', Hev. apply sampler_calls_snoc.
  - destruct (startSpanCore_root operationName opts io s Hres)
      as (l & s0 & pre & seen & Hcore & Hpre & _ & _ & _ & _ & Hev & _).
    destruct (StartSpan_after_core operationName options io s s0 l pre Hcore Hpre)
      as (s' & child & Hrun & _ & _ & _ & Hev').
    exists l, s'. split; [exact Hrun|]. exists seen.
    rewrite Hev', Hev. apply sampler_calls_snoc.
Qed.

(** ** Sequences of calls *)

(** What one [pushError] does to the tracer's channels and to the rest of
    the machine, in one place. *)
Lemma pushError_effect (err : tracerError) (s : state) :
  ∃ s', pushError err s = Returns s' ∧
    t_config (tr s') = t_config (tr s) ∧
    t_payload (tr s') = t_payload (tr s) ∧
    flushTracesReq (tr s') = flushTracesReq (tr s) ∧
    traceBuffer (tr s') = traceBuffer (tr s) ∧
    stopped (tr s') = stopped (tr s) ∧
    syncPush (tr s') = syncPush (tr s) ∧
    spans s' = spans s ∧ contexts s' = contexts s ∧ events s' = events s ∧
    chan_cap (errorBuffer (tr s')) = chan_cap (errorBuffer (tr s)) ∧
    chan_buf (errorBuffer (tr s')) =
      (if decide (chan_len (errorBuffer (tr s)) < chan_cap (errorBuffer (tr s)))%nat
       then chan_buf (errorBuffer (tr s)) ++ [err]
       else chan_buf (errorBuffer (tr s))) ∧
    chan_cap (flushErrorsReq (tr s')) = chan_cap (flushErrorsReq (tr s)) ∧
    chan_buf (flushErrorsReq (tr s')) =
      (if decide (chan_cap (errorBuffer (tr s)) / 2 <= chan_len (errorBuffer (tr s)))%nat
       then if decide (chan_len (flushErrorsReq (tr s)) < chan_cap (flushErrorsReq (tr s)))%nat
            then chan_buf (flushErrorsReq (tr s)) ++ [tt]
            else chan_buf (flushErrorsReq (tr s))
       else chan_buf (flushErrorsReq (tr s))).
Proof.
  destruct (pushError_frame err s)
    as (s' & Hrun & H1 & H2 & H3 & H4 & H5 & H6 & H7 & H8 & H9).
  destruct (pushError_errorBuffer err s s' Hrun) as [Ha Hb].
  destruct (pushError_flushErrorsReq err s s' Hrun) as [Hc Hd].
  exists s'. repeat (split; [assumption|]). assumption.
Qed.

Lemma run_calls_cons (c : call) (cs : list call) (s : state) :
  run_calls (c :: cs) s = run_calls cs (perform c s).
Proof. reflexivity. Qed.

Lemma run_calls_app (cs cs' : list call) (s : state) :
  run_calls (cs ++ cs') s = run_calls cs' (run_calls cs s).
Proof. unfold run_calls. apply fold_left_app. Qed.

(** X1.  The error queue keeps the oldest records: of the records pushed in a
    row, those that fit behind the queued ones are appended in order and the
    later ones are dropped. *)
Theorem pushError_keeps_oldest (errs : list tracerError) (s : state) :
  let eb := errorBuffer (tr s) in
  let s' := run_calls (map CallPushError errs) s in
  chan_cap (errorBuffer (tr s')) = chan_cap eb ∧
  chan_buf (errorBuffer (tr s')) =
    chan_buf eb ++ take (chan_cap eb - chan_len eb) errs.
Proof.
  cbv zeta. revert s.
  induction errs as [|e errs IH]; intros s.
  - simpl. rewrite take_nil, app_nil_r. split; reflexivity.
  - rewrite map_cons, run_calls_cons.
    change (perform (CallPushError e) s) with (outcome_state (pushError e s)).
    destruct (pushError_effect e s)
      as (s1 & Hrun & _ & _ & _ & _ & _ & _ & _ & _ & _ & Hcap & Hbuf & _).
    rewrite Hrun. cbn [outcome_state].
    destruct (IH s1) as [IHcap IHbuf].
    rewrite IHcap, IHbuf, Hcap. split; [reflexivity|].
    unfold chan_len in *. rewrite Hbuf.
    case_decide as Hroom.
    + rewrite length_app. simpl.
      replace (chan_cap (errorBuffer (tr s)) - length (chan_buf (errorBuffer (tr s))))%nat
        with (S (chan_cap (errorBuffer (tr s))
                 - (length (chan_buf (errorBuffer (tr s))) + 1)))%nat by lia.
      simpl. rewrite <- app_assoc. reflexivity.
    + replace (chan_cap (errorBuffer (tr s)) - length (chan_buf (errorBuffer (tr s))))%nat
        with 0%nat by lia.
      rewrite !take_0. reflexivity.
Qed.

Lemma pushError_request_sequence (errs : list tracerError) (s : state) :
  chan_cap (flushErrorsReq (tr s)) = 1%nat →
  let eb := errorBuffer (tr s) in
  chan_buf (flushErrorsReq (tr (run_calls (map CallPushError errs) s))) =
    if decide (chan_buf (flushErrorsReq (tr s)) = [])
    then if decide (0 < length errs ∧ chan_cap eb / 2 < chan_len eb + length errs)%nat
         then [tt] else []
    else chan_buf (flushErrorsReq (tr s)).
Proof.
  cbv zeta. revert s.
  induction errs as [|e errs IH]; intros s Hcap.
  - simpl. repeat case_decide; simpl in *; try reflexivity; try congruence;
      destruct_and?; lia.
  - rewrite map_cons, run_calls_cons.
    change (perform (CallPushError e) s) with (outcome_state (pushError e s)).
    destruct (pushError_effect e s)
      as (s1 & Hrun & _ & _ & _ & _ & _ & _ & _ & _ & _ & Hecap & Hebuf & Hrcap & Hrbuf).
    rewrite Hrun. cbn [outcome_state].
    rewrite (IH s1) by congruence.
    rewrite Hrbuf, Hecap. unfold chan_len in *. rewrite Hebuf, Hcap.
    assert (Hhalf : (chan_cap (errorBuffer (tr s)) / 2 <= chan_cap (errorBuffer (tr s)))%nat)
      by (apply Nat.Div0.div_le_upper_bound; lia).
    destruct (chan_buf (flushErrorsReq (tr s))) as [|u rest] eqn:Hreq; simpl.
    + repeat (case_decide; simpl in *); rewrite ?length_app in *; simpl in *;
        try reflexivity; try discriminate; try congruence;
        try (exfalso; destruct_and?; lia);
        try (exfalso; match goal with H : ¬ (_ ∧ _) |- _ => apply H; split; lia end).
    + repeat (case_decide; simpl in *); rewrite ?length_app in *; simpl in *;
        try reflexivity; try discriminate; try congruence;
        try (exfalso; destruct_and?; lia);
        try (exfalso; match goal with H : ¬ (_ ∧ _) |- _ => apply H; split; lia end).
Qed.

(** X2.  The flush-errors request is raised once: on a tracer whose request
    channel has capacity 1 and is empty, a row of [pushError] calls leaves
    exactly one request pending when some call found the error queue at half
    its capacity or more, and none otherwise. *)
Theorem pushError_requests_flush_once (errs : list tracerError) (s : state) :
  chan_cap (flushErrorsReq (tr s)) = 1%nat →
  chan_buf (flushErrorsReq (tr s)) = [] →
  let eb := errorBuffer (tr s) in
  chan_buf (flushErrorsReq (tr (run_calls (map CallPushError errs) s))) =
    if decide (0 < length errs ∧ chan_cap eb / 2 < chan_len eb + length errs)%nat
    then [tt] else [].
Proof.
  intros Hcap Hempty eb.
  rewrite (pushError_request_sequence errs s Hcap).
  rewrite decide_True by exact Hempty. reflexivity.
Qed.

(** What one [pushTrace] leaves behind, whether it returns or parks. *)
Lemma pushTrace_effect (trace : list loc) (s : state) :
  let s' := outcome_state (pushTrace trace s) in
  t_config (tr s') = t_config (tr s) ∧
  t_payload (tr s') = t_payload (tr s) ∧
  flushTracesReq (tr s') = flushTracesReq (tr s) ∧
  stopped (tr s') = stopped (tr s) ∧
  syncPush (tr s') = syncPush (tr s) ∧
  spans s' = spans s ∧ contexts s' = contexts s ∧ events s' = events s ∧
  chan_cap (traceBuffer (tr s')) = chan_cap (traceBuffer (tr s)) ∧
  if decide (chan_len (traceBuffer (tr s)) < chan_cap (traceBuffer (tr s)))%nat
  then chan_buf (traceBuffer (tr s')) = chan_buf (traceBuffer (tr s)) ++ [trace] ∧
       errorBuffer (tr s') = errorBuffer (tr s) ∧
       flushErrorsReq (tr s') = flushErrorsReq (tr s)
  else chan_buf (traceBuffer (tr s')) = chan_buf (traceBuffer (tr s)) ∧
       pushError (traceBufferError (length trace)) s = Returns s'.
Proof.
  cbv zeta. unfold pushTrace, try_send.
  case_decide as Hroom.
  - simpl. destruct (syncPush (tr s)) eqn:Hs; simpl; rewrite ?Hs;
      repeat split; reflexivity.
  - destruct (pushError_effect (traceBufferError (length trace)) s)
      as (s' & Hrun & H1 & H2 & H3 & H4 & H5 & H6 & H7 & H8 & H9 & _).
    rewrite Hrun.
    replace (outcome_state (if syncPush (tr s') then Blocks s' RecvSyncPush else Returns s'))
      with s' by (destruct (syncPush (tr s')); reflexivity).
    rewrite H4. repeat (split; [assumption || reflexivity|]). reflexivity.
Qed.

(** X3.  Ingestion overflow, push after push: of the traces pushed in a row the
    first ones fill the room left in the ingestion queue, in order; every
    later one is dropped and answered by one overflow record carrying its
    span count, and those records reach the error queue in order for as
    long as that queue has room. *)
Theorem pushTrace_drops_overflow (ts : list (list loc)) (s : state) :
  let tb := traceBuffer (tr s) in
  let eb := errorBuffer (tr s) in
  let room := (chan_cap tb - chan_len tb)%nat in
  let s' := run_calls (map CallPushTrace ts) s in
  chan_buf (traceBuffer (tr s')) = chan_buf tb ++ take room ts ∧
  chan_buf (errorBuffer (tr s')) =
    chan_buf eb ++
    take (chan_cap eb - chan_len eb)
         (map (fun t => traceBufferError (length t)) (drop room ts)).
Proof.
  cbv zeta. revert s.
  induction ts as [|t ts IH]; intros s.
  - simpl. rewrite !take_nil, drop_nil. simpl. rewrite take_nil, !app_nil_r.
    split; reflexivity.
  - rewrite map_cons, run_calls_cons.
    change (perform (CallPushTrace t) s) with (outcome_state (pushTrace t s)).
    destruct (pushTrace_effect t s)
      as (_ & _ & _ & _ & _ & _ & _ & _ & Hcap & Hcase).
    destruct (IH (outcome_state (pushTrace t s))) as [IHt IHe].
    rewrite IHt, IHe, Hcap. clear IHt IHe.
    unfold chan_len in *.
    case_decide as Hroom.
    + destruct Hcase as (Hbuf & Herr & _). rewrite Hbuf, Herr, length_app. simpl.
      replace (chan_cap (traceBuffer (tr s)) - length (chan_buf (traceBuffer (tr s))))%nat
        with (S (chan_cap (traceBuffer (tr s))
                 - (length (chan_buf (traceBuffer (tr s))) + 1)))%nat by lia.
      simpl. rewrite <- app_assoc. split; reflexivity.
    + destruct Hcase as (Hbuf & Hrun). rewrite Hbuf.
      destruct (pushError_effect (traceBufferError (length t)) s)
        as (s1 & Hrun1 & _ & _ & _ & _ & _ & _ & _ & _ & _ & Hecap & Hebuf & _).
      rewrite Hrun in Hrun1. injection Hrun1 as <-.
      replace (chan_cap (traceBuffer (tr s)) - length (chan_buf (traceBuffer (tr s))))%nat
        with 0%nat by lia.
      rewrite !take_0, !drop_0, !app_nil_r. split; [reflexivity|].
      rewrite Hecap, Hebuf. clear Hebuf. unfold chan_len. simpl.
      case_decide as Heroom.
      * rewrite length_app. simpl.
        replace (chan_cap (errorBuffer (tr s)) - length (chan_buf (errorBuffer (tr s))))%nat
          with (S (chan_cap (errorBuffer (tr s))
                   - (length (chan_buf (errorBuffer (tr s))) + 1)))%nat by lia.
        simpl. rewrite <- app_assoc. reflexivity.
      * replace (chan_cap (errorBuffer (tr s)) - length (chan_buf (errorBuffer (tr s))))%nat
          with 0%nat by lia.
        rewrite !take_0. reflexivity.
Qed.

(** ** Bounded queues *)

Lemma queues_bounded_ext (s s' : state) :
  traceBuffer (tr s') = traceBuffer (tr s) →
  errorBuffer (tr s') = errorBuffer (tr s) →
  flushTracesReq (tr s') = flushTracesReq (tr s) →
  flushErrorsReq (tr s') = flushErrorsReq (tr s) →
  queues_bounded s → queues_bounded s'.
Proof. unfold queues_bounded. intros -> -> -> ->. tauto. Qed.

Lemma pushError_bounded (err : tracerError) (s s' : state) :
  pushError err s = Returns s' → queues_bounded s → queues_bounded s'.
Proof.
  intros Hrun.
  destruct (pushError_effect err s)
    as (s0 & Hrun0 & _ & _ & Hft & Htb & _ & _ & _ & _ & _ & Hecap & Hebuf & Hrcap & Hrbuf).
  rewrite Hrun in Hrun0. injection Hrun0 as <-.
  unfold queues_bounded, within_capacity, chan_len.
  rewrite Hft, Htb, Hecap, Hrcap, Hebuf, Hrbuf. unfold chan_len.
  intros (C1 & C2 & C3 & C4 & B1 & B2 & B3 & B4).
  repeat case_decide; rewrite ?length_app; simpl; repeat split; lia.
Qed.

Lemma pushTrace_bounded (trace : list loc) (s : state) :
  queues_bounded s → queues_bounded (outcome_state (pushTrace trace s)).
Proof.
  intros Hb.
  destruct (pushTrace_effect trace s)
    as (_ & _ & Hft & _ & _ & _ & _ & _ & Hcap & Hcase).
  case_decide as Hroom.
  - destruct Hcase as (Hbuf & Heb & Hreq).
    revert Hb. unfold queues_bounded, within_capacity, chan_len in *.
    rewrite Hft, Heb, Hreq, Hcap, Hbuf, length_app. simpl.
    intros (C1 & C2 & C3 & C4 & B1 & B2 & B3 & B4). repeat split; lia.
  - destruct Hcase as (_ & Hrun). eapply pushError_bounded; eassumption.
Qed.

Lemma flushTraces_bounded (s : state) :
  queues_bounded s → queues_bounded (outcome_state (flushTraces s)).
Proof.
  intros Hb. unfold flushTraces. case_decide; [exact Hb|].
  set (s0 := if debug _ then _ else s).
  assert (H0 : queues_bounded (emit (EvSend (t_payload (tr s))) s0)).
  { subst s0. destruct (debug _); exact Hb. }
  destruct (send _ _ _) as [e|].
  - destruct (pushError_effect (transportError e (payload_itemCount (t_payload (tr s))))
                (emit (EvSend (t_payload (tr s))) s0)) as (s' & Hrun & _).
    rewrite Hrun. eapply pushError_bounded; eassumption.
  - exact H0.
Qed.

Lemma logErrors_bounded (s : state) : queues_bounded s → queues_bounded (logErrors s).
Proof.
  unfold queues_bounded, within_capacity, chan_len, logErrors. simpl.
  intros (C1 & C2 & C3 & C4 & B1 & B2 & B3 & B4). repeat split; try assumption; lia.
Qed.

Lemma flush_bounded (s : state) :
  queues_bounded s → queues_bounded (outcome_state (flush s)).
Proof.
  intros Hb. unfold flush, andThen, flushErrors.
  destruct (flushTraces_quiet s) as (s1 & Hrun & _).
  pose proof (flushTraces_bounded s Hb) as H1. rewrite Hrun in *. simpl in *.
  apply logErrors_bounded. exact H1.
Qed.

Lemma pushPayload_bounded (trace : list loc) (s : state) :
  queues_bounded s → queues_bounded (outcome_state (pushPayload trace s)).
Proof.
  intros Hb.
  destruct (pushPayload_unfold trace s) as (s1 & Hmerge & _ & Hrun).
  cbv zeta in Hrun. rewrite Hrun.
  assert (H1 : queues_bounded s1).
  { destruct (enc (trace_spans s trace)) as [n|e].
    - subst s1. exact Hb.
    - eapply pushError_bounded; [exact Hmerge|]. exact Hb. }
  assert (H2 : queues_bounded
                 (if decide (payloadSizeLimit < payload_size (t_payload (tr s1)))
                  then upd_tr (select_send_or_skip flushTracesReq set_flushTracesReq tt) s1
                  else s1)).
  { case_decide; [|exact H1].
    revert H1. unfold queues_bounded, within_capacity.
    intros (C1 & C2 & C3 & C4 & B1 & B2 & B3 & B4).
    chan_cases; rewrite ?length_app; simpl; repeat split; try assumption; lia. }
  destruct (syncPush (tr s)); exact H2.
Qed.

Lemma worker_serve_bounded (c : workerCase) (s : state) :
  queues_bounded s → queues_bounded (worker_serve c s).
Proof.
  intros Hb.
  assert (Hrecv : ∀ s0, queues_bounded s0 →
            (∀ trace q, try_recv (traceBuffer (tr s0)) = Some (trace, q) →
               queues_bounded (upd_tr (set_traceBuffer q) s0)) ∧
            (∀ u q, try_recv (flushTracesReq (tr s0)) = Some (u, q) →
               queues_bounded (upd_tr (set_flushTracesReq q) s0)) ∧
            (∀ u q, try_recv (flushErrorsReq (tr s0)) = Some (u, q) →
               queues_bounded (upd_tr (set_flushErrorsReq q) s0))).
  { intros s0. unfold queues_bounded, within_capacity, try_recv, chan_len.
    intros (C1 & C2 & C3 & C4 & B1 & B2 & B3 & B4).
    split; [|split]; intros x q Hq;
      match type of Hq with
      | context [chan_buf ?c] => destruct (chan_buf c) eqn:Hbuf
      end; simplify_eq; simpl in *; repeat split; try assumption; lia. }
  destruct (Hrecv s Hb) as (R1 & R2 & R3).
  destruct c; simpl.
  - destruct (try_recv (traceBuffer (tr s))) as [[trace q]|] eqn:Hq; [|exact Hb].
    apply pushPayload_bounded. eapply R1; reflexivity.
  - apply flush_bounded; exact Hb.
  - apply flush_bounded; exact Hb.
  - destruct (try_recv (flushTracesReq (tr s))) as [[u q]|] eqn:Hq; [|exact Hb].
    apply flushTraces_bounded. eapply R2; reflexivity.
  - destruct (try_recv (flushErrorsReq (tr s))) as [[u q]|] eqn:Hq; [|exact Hb].
    simpl. apply logErrors_bounded. eapply R3; reflexivity.
Qed.

Lemma perform_bounded (c : call) (s : state) :
  queues_bounded s → queues_bounded (perform c s).
Proof.
  intros Hb. destruct c; cbn [perform].
  - apply pushTrace_bounded; exact Hb.
  - destruct (pushError_effect err s) as (s' & Hrun & _).
    rewrite Hrun. cbn [outcome_state].
    eapply pushError_bounded; [exact Hrun|exact Hb].
  - destruct (stopped (tr s)); [exact Hb|]. apply worker_serve_bounded; exact Hb.
  - unfold Stop. destruct (stopped (tr s)); [exact Hb|]. cbn [outcome_state].
    unfold worker_exit, worker_run. cbn [fold_left].
    eapply queues_bounded_ext; [reflexivity..|].
    apply flush_bounded. exact Hb.
  - unfold forceFlush. destruct (stopped (tr s)); [exact Hb|].
    unfold worker_run. cbn [fold_left worker_serve].
    apply flush_bounded. exact Hb.
Qed.

(** X4.  Bounded memory: whatever producers, the worker and callers do after
    [newTracer], and in whatever order, the tracer never holds more than 200
    queued traces, 200 queued error records, one pending flush-traces
    request and one pending flush-errors request. *)
Theorem tracer_queues_stay_bounded (cfg : config) (heap : gmap loc span)
    (ctxs : gmap loc spanContext) (evs : list event) (cs : list call) :
  let s' := run_calls cs (mkState (newTracer cfg) heap ctxs evs) in
  (chan_len (traceBuffer (tr s')) <= 200)%nat ∧
  (chan_len (errorBuffer (tr s')) <= 200)%nat ∧
  (chan_len (flushTracesReq (tr s')) <= 1)%nat ∧
  (chan_len (flushErrorsReq (tr s')) <= 1)%nat.
Proof.
  cbv zeta.
  assert (Hinv : ∀ cs s, queues_bounded s → queues_bounded (run_calls cs s)).
  { clear. intros cs. induction cs as [|c cs IH]; intros s Hb; [exact Hb|].
    rewrite run_calls_cons. apply IH. apply perform_bounded. exact Hb. }
  assert (H0 : queues_bounded (mkState (newTracer cfg) heap ctxs evs)).
  { unfold queues_bounded, within_capacity, chan_len. simpl.
    unfold traceBufferSize, errorBufferSize. repeat split; lia. }
  specialize (Hinv cs _ H0).
  unfold queues_bounded, within_capacity, traceBufferSize, errorBufferSize in Hinv.
  destruct Hinv as (C1 & C2 & C3 & C4 & B1 & B2 & B3 & B4).
  repeat split; lia.
Qed.

(** ** The life cycle *)

(** X5.  Once [stopped] is closed the tracer is inert: producers still fill the
    queues, but no call makes the worker run again, nothing reaches the
    transport or the log, and the payload stays as the last flush left it. *)
Theorem stopped_tracer_is_inert (cs : list call) (s : state) :
  stopped (tr s) = true →
  let s' := run_calls cs s in
  stopped (tr s') = true ∧ events s' = events s ∧
  t_payload (tr s') = t_payload (tr s).
Proof.
  cbv zeta. revert s.
  induction cs as [|c cs IH]; intros s Hstopped; [repeat split; assumption|].
  rewrite run_calls_cons.
  assert (Hstep : stopped (tr (perform c s)) = true ∧
                  events (perform c s) = events s ∧
                  t_payload (tr (perform c s)) = t_payload (tr s)).
  { destruct c; cbn [perform].
    - destruct (pushTrace_effect trace s) as (_ & Hp & _ & Hst & _ & _ & _ & Hev & _).
      rewrite Hst, Hev, Hp. repeat split; assumption.
    - destruct (pushError_effect err s)
        as (s' & Hrun & _ & Hp & _ & _ & Hst & _ & _ & _ & Hev & _).
      rewrite Hrun. cbn [outcome_state]. rewrite Hst, Hev, Hp.
      repeat split; assumption.
    - rewrite Hstopped. repeat split; assumption.
    - unfold Stop. rewrite Hstopped. repeat split; assumption.
    - unfold forceFlush. rewrite Hstopped. repeat split; assumption. }
  destruct Hstep as (Hst & Hev & Hp).
  destruct (IH _ Hst) as (IH1 & IH2 & IH3).
  repeat split; congruence.
Qed.

Lemma perform_exit_requests (c : call) (s : state) :
  exit_requests (events s) = (if stopped (tr s) then 1 else 0)%nat →
  exit_requests (events (perform c s))
    = (if stopped (tr (perform c s)) then 1 else 0)%nat.
Proof.
  intros Hinv.
  assert (Hquiet : ∀ s', quiet s s' →
            exit_requests (events s') = (if stopped (tr s') then 1 else 0)%nat).
  { intros s' [Hst Hex]. rewrite Hst, Hex. exact Hinv. }
  destruct c; cbn [perform].
  - apply Hquiet.
    destruct (pushTrace_effect trace s) as (_ & _ & _ & Hst & _ & _ & _ & Hev & _).
    split; [exact Hst|rewrite Hev; reflexivity].
  - apply Hquiet.
    destruct (pushError_effect err s) as (s' & Hrun & _).
    rewrite Hrun. cbn [outcome_state]. eapply pushError_quiet; exact Hrun.
  - destruct (stopped (tr s)) eqn:Hst.
    + rewrite Hst. exact Hinv.
    + apply Hquiet. apply worker_serve_quiet.
  - unfold Stop. destruct (stopped (tr s)) eqn:Hst; cbn [outcome_state].
    + rewrite Hst. exact Hinv.
    + unfold worker_exit, worker_run. cbn [fold_left].
      destruct (flush_returns (emit EvExitReq s)) as (sf & Hflush & _ & _ & Hex).
      rewrite Hflush. simpl. rewrite Hex. unfold exit_requests in *. simpl.
      rewrite omap_app, length_app. simpl. lia.
  - unfold forceFlush. destruct (stopped (tr s)) eqn:Hst.
    + rewrite Hst. exact Hinv.
    + apply Hquiet. apply (worker_serve_quiet CaseFlushAll).
Qed.

(** X6.  The worker is asked to exit at most once: on a running tracer that has
    seen no exit request, any sequence of calls hands over one exit request
    if it closes [stopped] and none if it does not, however many times
    [Stop] is called. *)
Theorem exit_requested_at_most_once (cs : list call) (s : state) :
  stopped (tr s) = false → exit_requests (events s) = 0%nat →
  let s' := run_calls cs s in
  exit_requests (events s') = (if stopped (tr s') then 1 else 0)%nat.
Proof.
  intros Hopen Hnone. cbv zeta.
  assert (Hinv : exit_requests (events s) = (if stopped (tr s) then 1 else 0)%nat)
    by (rewrite Hopen; exact Hnone).
  clear Hopen Hnone. revert s Hinv.
  induction cs as [|c cs IH]; intros s Hinv; [exact Hinv|].
  rewrite run_calls_cons. apply IH. apply perform_exit_requests. exact Hinv.
Qed.

(** ** The worker's turns *)

(** What one [pushPayload] leaves behind, whether it returns or parks. *)
Lemma pushPayload_effect (trace : list loc) (s : state) :
  let p := t_payload (tr s) in
  let s' := outcome_state (pushPayload trace s) in
  spans s' = spans s ∧ contexts s' = contexts s ∧ events s' = events s ∧
  traceBuffer (tr s') = traceBuffer (tr s) ∧
  stopped (tr s') = stopped (tr s) ∧
  t_config (tr s') = t_config (tr s) ∧
  chan_cap (errorBuffer (tr s')) = chan_cap (errorBuffer (tr s)) ∧
  match enc (trace_spans s trace) with
  | inl n =>
      t_payload (tr s') = mkPayload (p_traces p ++ [trace_spans s trace]) (p_bytes p + n) ∧
      chan_buf (errorBuffer (tr s')) = chan_buf (errorBuffer (tr s))
  | inr e =>
      t_payload (tr s') = p ∧
      chan_buf (errorBuffer (tr s')) =
        if decide (chan_len (errorBuffer (tr s)) < chan_cap (errorBuffer (tr s)))%nat
        then chan_buf (errorBuffer (tr s)) ++ [encodingError e]
        else chan_buf (errorBuffer (tr s))
  end ∧
  chan_buf (flushTracesReq (tr s')) =
    if decide (payloadSizeLimit < payload_size (t_payload (tr s')))
    then if decide (chan_len (flushTracesReq (tr s)) < chan_cap (flushTracesReq (tr s)))%nat
         then chan_buf (flushTracesReq (tr s)) ++ [tt]
         else chan_buf (flushTracesReq (tr s))
    else chan_buf (flushTracesReq (tr s)).
Proof.
  intros p s'.
  destruct (pushPayload_unfold trace s) as (s1 & Hmerge & _ & Hrun).
  cbv zeta in Hrun.
  set (s2 := if decide (payloadSizeLimit < payload_size (t_payload (tr s1)))
             then upd_tr (select_send_or_skip flushTracesReq set_flushTracesReq tt) s1
             else s1) in *.
  assert (Hs' : s' = s2).
  { subst s'. rewrite Hrun. destruct (syncPush (tr s)); reflexivity. }
  assert (H12 : spans s2 = spans s1 ∧ contexts s2 = contexts s1 ∧ events s2 = events s1 ∧
                traceBuffer (tr s2) = traceBuffer (tr s1) ∧
                stopped (tr s2) = stopped (tr s1) ∧
                t_config (tr s2) = t_config (tr s1) ∧
                errorBuffer (tr s2) = errorBuffer (tr s1) ∧
                t_payload (tr s2) = t_payload (tr s1)).
  { subst s2. case_decide; [|repeat split; reflexivity].
    chan_cases; repeat split; reflexivity. }
  destruct H12 as (A1 & A2 & A3 & A4 & A5 & A6 & A7 & A8).
  assert (Hreq : chan_buf (flushTracesReq (tr s2)) =
            if decide (payloadSizeLimit < payload_size (t_payload (tr s1)))
            then if decide (chan_len (flushTracesReq (tr s1)) < chan_cap (flushTracesReq (tr s1)))%nat
                 then chan_buf (flushTracesReq (tr s1)) ++ [tt]
                 else chan_buf (flushTracesReq (tr s1))
            else chan_buf (flushTracesReq (tr s1))).
  { subst s2. case_decide; [|reflexivity]. chan_cases; reflexivity. }
  rewrite Hs', A1, A2, A3, A4, A5, A6, A7, A8, Hreq. clear Hs' A1 A2 A3 A4 A5 A6 A7 A8 Hreq.
  destruct (enc (trace_spans s trace)) as [n|e].
  - subst s1. simpl. repeat split; reflexivity.
  - destruct (pushError_effect (encodingError e)
                (upd_tr (set_payload (t_payload (tr s))) s))
      as (s0 & Hrun0 & B1 & B2 & B3 & B4 & B5 & _ & B7 & B8 & B9 & B10 & B11 & _).
    rewrite Hrun0 in Hmerge. injection Hmerge as <-.
    rewrite B1, B2, B3, B4, B5, B7, B8, B9, B10, B11. simpl.
    repeat split; reflexivity.
Qed.


(** X7.  The worker empties the ingestion queue first in, first out: after as
    many trace turns as there are queued traces the queue is empty, the
    traces the payload accepts have been appended to it in queue order with
    their bytes, and the refusals have gone to the error queue in queue
    order for as long as that queue has room. *)
Theorem worker_drains_in_order (s : state) :
  let queue := chan_buf (traceBuffer (tr s)) in
  let eb := errorBuffer (tr s) in
  let s' := worker_run (repeat CaseTrace (length queue)) s in
  chan_buf (traceBuffer (tr s')) = [] ∧
  p_traces (t_payload (tr s')) = p_traces (t_payload (tr s)) ++ accepted_traces s queue ∧
  payload_size (t_payload (tr s')) = payload_size (t_payload (tr s)) + accepted_bytes s queue ∧
  chan_buf (errorBuffer (tr s')) =
    chan_buf eb ++ take (chan_cap eb - chan_len eb) (refused_traces s queue).
Proof.
  cbv zeta.
  remember (chan_buf (traceBuffer (tr s))) as queue eqn:Hq.
  revert s Hq.
  induction queue as [|t queue IH]; intros s Hq.
  - simpl. rewrite take_nil, !app_nil_r, Z.add_0_r. repeat split; congruence.
  - cbn [length repeat]. unfold worker_run. cbn [fold_left].
    fold (worker_run (repeat CaseTrace (length queue)) (worker_serve CaseTrace s)).
    cbn [worker_serve]. unfold try_recv. rewrite <- Hq.
    set (s0 := upd_tr (set_traceBuffer (mkChan queue (chan_cap (traceBuffer (tr s))))) s).
    destruct (pushPayload_effect t s0)
      as (E1 & _ & _ & E4 & _ & _ & E7 & Ecase & _).
    set (s1 := outcome_state (pushPayload t s0)) in *.
    destruct (IH s1) as (I1 & I2 & I3 & I4).
    { rewrite E4. reflexivity. }
    assert (Hacc : accepted_traces s1 queue = accepted_traces s queue
                   ∧ accepted_bytes s1 queue = accepted_bytes s queue
                   ∧ refused_traces s1 queue = refused_traces s queue).
    { unfold accepted_traces, accepted_bytes, refused_traces, trace_spans.
      rewrite E1. repeat split; reflexivity. }
    destruct Hacc as (Ha & Hb & Hc).
    rewrite I1, I2, I3, I4, Ha, Hb, Hc, E7. clear I1 I2 I3 I4.
    assert (Ht0 : trace_spans s0 t = trace_spans s t) by reflexivity.
    rewrite Ht0 in Ecase.
    unfold accepted_traces, accepted_bytes, refused_traces. cbn [omap foldr list_omap].
    fold (accepted_traces s queue). fold (accepted_bytes s queue).
    fold (refused_traces s queue).
    unfold payload_size, chan_len in *. simpl in Ecase.
    destruct (enc (trace_spans s t)) as [n|e].
    + destruct Ecase as [-> ->]. simpl.
      rewrite <- app_assoc. simpl. repeat split; try reflexivity. lia.
    + destruct Ecase as [-> ->]. simpl.
      split; [reflexivity|]. split; [reflexivity|]. split; [reflexivity|].
      case_decide as Hroom.
      * rewrite length_app. simpl.
        replace (chan_cap (errorBuffer (tr s)) - length (chan_buf (errorBuffer (tr s))))%nat
          with (S (chan_cap (errorBuffer (tr s))
                   - (length (chan_buf (errorBuffer (tr s))) + 1)))%nat by lia.
        simpl. rewrite <- app_assoc. reflexivity.
      * replace (chan_cap (errorBuffer (tr s)) - length (chan_buf (errorBuffer (tr s))))%nat
          with 0%nat by lia.
        rewrite !take_0. reflexivity.
Qed.

(** ** Flushes in sequence *)

(** What one [flushTraces] leaves behind. *)
Lemma flushTraces_effect (s : state) :
  let p := t_payload (tr s) in
  let reply := send (cfg_transport (t_config (tr s))) (sent_payloads (events s)) p in
  ∃ s', flushTraces s = Returns s' ∧
    t_config (tr s') = t_config (tr s) ∧
    traceBuffer (tr s') = traceBuffer (tr s) ∧
    flushTracesReq (tr s') = flushTracesReq (tr s) ∧
    stopped (tr s') = stopped (tr s) ∧
    spans s' = spans s ∧ contexts s' = contexts s ∧
    chan_cap (errorBuffer (tr s')) = chan_cap (errorBuffer (tr s)) ∧
    if decide (payload_itemCount p = 0)%nat then s' = s
    else
      events s' =
        events s
        ++ (if debug (t_config (tr s))
            then [EvPrintf (payload_size p) (payload_itemCount p)] else [])
        ++ [EvSend p] ∧
      match reply with
      | None => t_payload (tr s') = payload_reset p ∧
                errorBuffer (tr s') = errorBuffer (tr s)
      | Some e =>
          t_payload (tr s') = p ∧
          chan_buf (errorBuffer (tr s')) =
            if decide (chan_len (errorBuffer (tr s)) < chan_cap (errorBuffer (tr s)))%nat
            then chan_buf (errorBuffer (tr s))
                 ++ [transportError e (payload_itemCount p)]
            else chan_buf (errorBuffer (tr s))
      end.
Proof.
  cbv zeta. unfold flushTraces.
  case_decide as Hn; [exists s; repeat split; reflexivity|].
  set (s1 := if debug (t_config (tr s))
             then emit (EvPrintf (payload_size (t_payload (tr s)))
                                 (payload_itemCount (t_payload (tr s)))) s
             else s).
  assert (Htr : tr s1 = tr s) by (subst s1; destruct (debug _); reflexivity).
  assert (Hsp : spans s1 = spans s ∧ contexts s1 = contexts s)
    by (subst s1; destruct (debug _); split; reflexivity).
  assert (Hev : events s1 = events s
                ++ (if debug (t_config (tr s))
                    then [EvPrintf (payload_size (t_payload (tr s)))
                                   (payload_itemCount (t_payload (tr s)))] else [])).
  { subst s1. destruct (debug _); simpl; rewrite ?app_nil_r; reflexivity. }
  assert (Hsent : sent_payloads (events s1) = sent_payloads (events s)).
  { rewrite Hev, sent_payloads_app. destruct (debug _); simpl; apply app_nil_r. }
  destruct Hsp as [Hsp Hctx]. rewrite Htr, Hsent.
  destruct (send _ _ _) as [e|].
  - destruct (pushError_effect
                (transportError e (payload_itemCount (t_payload (tr s))))
                (emit (EvSend (t_payload (tr s))) s1))
      as (s' & Hrun & B1 & B2 & B3 & B4 & B5 & _ & B7 & B8 & B9 & B10 & B11 & _).
    exists s'. split; [exact Hrun|].
    rewrite B1, B2, B3, B4, B5, B7, B8, B9, B10, B11. simpl.
    rewrite Htr, Hsp, Hctx, Hev, <- app_assoc. repeat split; reflexivity.
  - eexists. split; [reflexivity|]. simpl.
    rewrite Htr, Hsp, Hctx, Hev, <- app_assoc. repeat split; reflexivity.
Qed.

(** X8.  Retry: when the transport refuses a non-empty payload, the next
    [flushTraces] hands it the very same payload again, and resets the
    payload if that second send succeeds. *)
Theorem failed_flush_is_retried (s : state) (e : string) :
  let p := t_payload (tr s) in
  let tp := cfg_transport (t_config (tr s)) in
  payload_itemCount p ≠ 0%nat →
  send tp (sent_payloads (events s)) p = Some e →
  let s2 := outcome_state (flushTraces (outcome_state (flushTraces s))) in
  sent_payloads (events s2) = sent_payloads (events s) ++ [p; p] ∧
  (send tp (sent_payloads (events s) ++ [p]) p = None →
     payload_itemCount (t_payload (tr s2)) = 0%nat) ∧
  (is_Some (send tp (sent_payloads (events s) ++ [p]) p) →
     t_payload (tr s2) = p).
Proof.
  intros p tp Hn Hreply. cbv zeta.
  destruct (flushTraces_effect s) as (s1 & Hrun1 & Hc1 & _ & _ & _ & _ & _ & _ & Hcase1).
  rewrite decide_False in Hcase1 by exact Hn.
  fold p tp in Hcase1. rewrite Hreply in Hcase1.
  destruct Hcase1 as (Hev1 & Hp1 & _).
  rewrite Hrun1. cbn [outcome_state].
  assert (Hsent1 : sent_payloads (events s1) = sent_payloads (events s) ++ [p]).
  { rewrite Hev1, !sent_payloads_app. destruct (debug _); reflexivity. }
  destruct (flushTraces_effect s1) as (s2 & Hrun2 & _ & _ & _ & _ & _ & _ & _ & Hcase2).
  rewrite Hp1, Hc1, Hsent1 in Hcase2. rewrite decide_False in Hcase2 by exact Hn.
  fold p tp in Hcase2.
  rewrite Hrun2. cbn [outcome_state].
  destruct Hcase2 as (Hev2 & Hrest).
  split; [|split].
  - rewrite Hev2, !sent_payloads_app, Hsent1, <- app_assoc.
    destruct (debug _); reflexivity.
  - intros Hok. rewrite Hok in Hrest. destruct Hrest as [-> _]. reflexivity.
  - intros [e2 Hno]. rewrite Hno in Hrest. destruct Hrest as [-> _]. reflexivity.
Qed.

(** X9.  No double delivery: after a [flushTraces] that found the payload empty
    or whose send succeeded, a further [flushTraces] changes nothing and
    sends nothing. *)
Theorem delivered_payload_is_not_resent (s : state) :
  let p := t_payload (tr s) in
  payload_itemCount p = 0%nat ∨
    send (cfg_transport (t_config (tr s))) (sent_payloads (events s)) p = None →
  let s1 := outcome_state (flushTraces s) in
  flushTraces s1 = Returns s1.
Proof.
  intros p Hok. cbv zeta.
  destruct (flushTraces_effect s) as (s1 & Hrun1 & _ & _ & _ & _ & _ & _ & _ & Hcase1).
  rewrite Hrun1. cbn [outcome_state].
  assert (Hempty : payload_itemCount (t_payload (tr s1)) = 0%nat).
  { case_decide as Hn; [subst s1; exact Hn|].
    destruct Hok as [Hz|Hreply]; [contradiction|].
    fold p in Hcase1. rewrite Hreply in Hcase1.
    destruct Hcase1 as (_ & -> & _). reflexivity. }
  unfold flushTraces. rewrite decide_True by exact Hempty. reflexivity.
Qed.

(** X10.  A full flush logs the failure it has just met: when the transport
    refuses the payload, the transport error that [flushTraces] queues is in
    the batch [flushErrors] logs in the same flush, after the records that
    were waiting; the error queue is left empty and the payload is kept. *)
Theorem flush_logs_its_own_failure (s : state) (e : string) :
  let p := t_payload (tr s) in
  let eb := errorBuffer (tr s) in
  payload_itemCount p ≠ 0%nat →
  send (cfg_transport (t_config (tr s))) (sent_payloads (events s)) p = Some e →
  ∃ s' before, flush s = Returns s' ∧
    events s' =
      before ++ [EvSend p;
                 EvLogErrors (if decide (chan_len eb < chan_cap eb)%nat
                              then chan_buf eb ++ [transportError e (payload_itemCount p)]
                              else chan_buf eb)] ∧
    chan_buf (errorBuffer (tr s')) = [] ∧
    t_payload (tr s') = p.
Proof.
  intros p eb Hn Hreply.
  destruct (flushTraces_effect s) as (s1 & Hrun1 & _ & _ & _ & _ & _ & _ & _ & Hcase1).
  rewrite decide_False in Hcase1 by exact Hn.
  fold p in Hcase1. rewrite Hreply in Hcase1.
  destruct Hcase1 as (Hev1 & Hp1 & Hbuf1).
  unfold flush, andThen, flushErrors. rewrite Hrun1.
  exists (logErrors s1),
         (events s ++ (if debug (t_config (tr s))
                       then [EvPrintf (payload_size p) (payload_itemCount p)]
                       else [])).
  split; [reflexivity|].
  unfold logErrors. cbn [events emit upd_tr tr errorBuffer set_errorBuffer
                         t_payload chan_buf].
  rewrite Hev1, Hbuf1, Hp1. fold p eb.
  split; [|split; reflexivity].
  rewrite <- !app_assoc. reflexivity.
Qed.

(** X11.  [Stop] does not drain the ingestion queue: when the worker takes the
    exit request before the queued traces, the final flush covers only what
    was already merged into the payload, and the queued traces stay in the
    queue of a worker that has exited. *)
Theorem Stop_leaves_queued_traces (s : state) :
  stopped (tr s) = false →
  let p := t_payload (tr s) in
  let s1 := outcome_state (Stop [] s) in
  stopped (tr s1) = true ∧
  traceBuffer (tr s1) = traceBuffer (tr s) ∧
  sent_payloads (events s1) =
    sent_payloads (events s)
    ++ (if decide (payload_itemCount p = 0)%nat then [] else [p]).
Proof.
  intros Hopen p. cbv zeta. unfold Stop. rewrite Hopen. cbn [outcome_state].
  unfold worker_exit, worker_run. cbn [fold_left].
  unfold flush, andThen, flushErrors.
  destruct (flushTraces_effect (emit EvExitReq s))
    as (s1 & Hrun & _ & Htb & _ & _ & _ & _ & _ & Hcase).
  rewrite Hrun. cbn [outcome_state].
  split; [reflexivity|]. split; [exact Htb|].
  unfold logErrors. cbn [events emit upd_tr]. rewrite sent_payloads_app.
  cbn [sent_payloads omap list_omap]. rewrite app_nil_r.
  change (t_payload (tr (emit EvExitReq s))) with p in Hcase.
  case_decide as Hn.
  - subst s1. cbn [events emit]. rewrite sent_payloads_app. reflexivity.
  - destruct Hcase as (Hev & _). rewrite Hev. cbn [events emit].
    rewrite !sent_payloads_app. cbn [sent_payloads omap list_omap].
    rewrite !app_nil_r.
    destruct (debug _); cbn [omap list_omap]; rewrite ?app_nil_r; reflexivity.
Qed.

(** X12.  The eager flush: when merging the head of the ingestion queue takes the
    payload past [payloadSizeLimit] and no flush-traces request is pending,
    the worker's next flush-traces turn finds the request and hands the
    merged payload to the transport, without waiting for the ticker. *)
Theorem oversize_payload_is_flushed_eagerly (s : state) (t : list loc)
    (rest : list (list loc)) (n : Z) :
  let p := t_payload (tr s) in
  chan_buf (traceBuffer (tr s)) = t :: rest →
  enc (trace_spans s t) = inl n →
  payloadSizeLimit < payload_size p + n →
  chan_buf (flushTracesReq (tr s)) = [] →
  (0 < chan_cap (flushTracesReq (tr s)))%nat →
  let merged := mkPayload (p_traces p ++ [trace_spans s t]) (p_bytes p + n) in
  let s' := worker_run [CaseTrace; CaseFlushTraces] s in
  sent_payloads (events s') = sent_payloads (events s) ++ [merged] ∧
  chan_buf (flushTracesReq (tr s')) = [] ∧
  chan_buf (traceBuffer (tr s')) = rest.
Proof.
  intros p Hq Henc Hbig Hreq Hcap merged. cbv zeta.
  set (s0 := upd_tr (set_traceBuffer (mkChan rest (chan_cap (traceBuffer (tr s))))) s).
  set (s1 := outcome_state (pushPayload t s0)).
  assert (Hstep1 : worker_serve CaseTrace s = s1).
  { cbn [worker_serve]. unfold try_recv. rewrite Hq. reflexivity. }
  destruct (pushPayload_effect t s0)
    as (E1 & E2 & E3 & E4 & _ & E6 & _ & Ecase & Ereq).
  fold s1 in E1, E2, E3, E4, E6, Ecase, Ereq.
  change (trace_spans s0 t) with (trace_spans s t) in Ecase.
  rewrite Henc in Ecase. destruct Ecase as (Hp1 & _).
  change (t_payload (tr s0)) with p in Hp1. fold merged in Hp1.
  rewrite Hp1 in Ereq. unfold payload_size in Ereq, Hbig. cbn [p_bytes merged] in Ereq.
  rewrite decide_True in Ereq by exact Hbig.
  change (flushTracesReq (tr s0)) with (flushTracesReq (tr s)) in Ereq.
  unfold chan_len in Ereq. rewrite Hreq in Ereq. cbn [length] in Ereq.
  rewrite decide_True in Ereq by exact Hcap. cbn [app] in Ereq.
  set (s2 := upd_tr (set_flushTracesReq (mkChan [] (chan_cap (flushTracesReq (tr s1))))) s1).
  assert (Hstep2 : worker_serve CaseFlushTraces s1 = outcome_state (flushTraces s2)).
  { cbn [worker_serve]. unfold try_recv. rewrite Ereq. reflexivity. }
  unfold worker_run. cbn [fold_left]. rewrite Hstep1, Hstep2.
  destruct (flushTraces_effect s2) as (s3 & Hrun & _ & Htb & Hft & _ & _ & _ & _ & Hcase).
  rewrite Hrun. cbn [outcome_state].
  change (t_payload (tr s2)) with (t_payload (tr s1)) in Hcase.
  rewrite Hp1 in Hcase.
  rewrite decide_False in Hcase
    by (unfold payload_itemCount, merged; cbn [p_traces]; rewrite length_app; simpl; lia).
  destruct Hcase as (Hev & _).
  split; [|split].
  - rewrite Hev. change (events s2) with (events s1). rewrite E3.
    change (events s0) with (events s).
    rewrite !sent_payloads_app. cbn [sent_payloads omap list_omap].
    destruct (debug _); cbn [omap list_omap]; rewrite ?app_nil_r; reflexivity.
  - rewrite Hft. reflexivity.
  - rewrite Htb. change (traceBuffer (tr s2)) with (traceBuffer (tr s1)).
    rewrite E4. reflexivity.
Qed.


(** ** The span factory and the heap *)

(** What [sample] changes: the flag of the span's context, and at most the
    metrics of the span itself. *)
Lemma sample_frame (l c : loc) (sp : span) (ctx : spanContext) (s : state) :
  spans s !! l = Some sp → context sp = Some c → contexts s !! c = Some ctx →
  ∃ s' sp', sample l s = Some s' ∧ spans s' !! l = Some sp' ∧
    SpanID sp' = SpanID sp ∧ Start sp' = Start sp ∧ finished sp' = finished sp ∧
    context sp' = context sp ∧ Meta sp' = Meta sp ∧
    (∀ p, p ≠ l → spans s' !! p = spans s !! p) ∧
    (∀ c', c' ≠ c → contexts s' !! c' = contexts s !! c') ∧
    contexts s' !! c = Some (set_sampled (Sample (sampler (t_config (tr s))) sp) ctx) ∧
    events s' = events s ++ [EvSample l sp] ∧ tr s' = tr s.
Proof.
  intros Hl Hc Hctx. unfold sample. rewrite Hl. simpl. rewrite Hc. simpl.
  rewrite Hctx. simpl.
  assert (Hother : ∀ c', c' ≠ c →
            alter (set_sampled (Sample (sampler (t_config (tr s))) sp)) c (contexts s) !! c'
            = contexts s !! c')
    by (intros c' Hne; apply lookup_alter_ne; congruence).
  assert (Hself : alter (set_sampled (Sample (sampler (t_config (tr s))) sp)) c
                    (contexts s) !! c
                  = Some (set_sampled (Sample (sampler (t_config (tr s))) sp) ctx))
    by (rewrite lookup_alter_eq, Hctx; reflexivity).
  assert (Hkeep : ∃ s' sp',
            Some (upd_contexts
                    (alter (set_sampled (Sample (sampler (t_config (tr s))) sp)) c)
                    (emit (EvSample l sp) s)) = Some s' ∧
            spans s' !! l = Some sp' ∧
            SpanID sp' = SpanID sp ∧ Start sp' = Start sp ∧ finished sp' = finished sp ∧
            context sp' = Some c ∧ Meta sp' = Meta sp ∧
            (∀ p, p ≠ l → spans s' !! p = spans s !! p) ∧
            (∀ c', c' ≠ c → contexts s' !! c' = contexts s !! c') ∧
            contexts s' !! c
              = Some (set_sampled (Sample (sampler (t_config (tr s))) sp) ctx) ∧
            events s' = events s ++ [EvSample l sp] ∧ tr s' = tr s).
  { eexists _, sp. split; [reflexivity|]. simpl.
    repeat (split; [first [assumption | reflexivity]|]). reflexivity. }
  destruct (Sample (sampler (t_config (tr s))) sp) eqn:Hdec; simpl; [|exact Hkeep].
  destruct (Rate (sampler (t_config (tr s)))) as [r|]; [|exact Hkeep].
  destruct (PrimFloat.ltb r 1); [|exact Hkeep].
  destruct (finished sp) eqn:Hfin; [exact Hkeep|].
  eexists _, _. split; [reflexivity|]. simpl.
  rewrite lookup_alter_eq, Hl. simpl. split; [reflexivity|]. simpl.
  repeat (split; [first [assumption | reflexivity]|]).
  split; [intros p Hne; apply lookup_alter_ne; congruence|].
  repeat (split; [first [assumption | reflexivity]|]). reflexivity.
Qed.

(** The root branch again, with what it leaves alone. *)
Lemma initRoot_frame (l : loc) (io : ambient) (s : state) (sp : span) :
  spans s !! l = Some sp →
  ∃ s' sp' seen c ctx, initRoot l io s = Some s' ∧ spans s' !! l = Some sp' ∧
    SpanID sp' = SpanID sp ∧ Start sp' = Start sp ∧ finished sp' = finished sp ∧
    context sp' = Some c ∧ contexts s !! c = None ∧
    contexts s' !! c = Some ctx ∧
    sampled ctx = Sample (sampler (t_config (tr s))) seen ∧
    (∀ k, Meta sp' !! k = if decide (ext_Pid = k)
                          then Some (pretty (Getpid io)) else Meta sp !! k) ∧
    events s' = events s ++ [EvSample l seen] ∧ tr s' = tr s ∧
    (∀ p, p ≠ l → spans s' !! p = spans s !! p) ∧
    (∀ c', is_Some (contexts s !! c') → contexts s' !! c' = contexts s !! c').
Proof.
  intros Hl. unfold initRoot.
  destruct (newSpanContext_run l None s sp Hl) as (c & x & -> & Hfresh).
  simpl.
  set (seen := setTag ext_Pid (TagString (pretty (Getpid io)))
                 (set_context (Some c) sp)).
  destruct (sample_frame l c seen x
              (SetTag ext_Pid (TagString (pretty (Getpid io))) l
                 (upd_spans (alter (set_context (Some c)) l)
                    (upd_contexts (<[c := x]>) s))))
    as (s' & sp' & Hrun & Hl' & F1 & F2 & F3 & F4 & F5 & F6 & F7 & F8 & F9 & F10).
  { unfold SetTag. simpl. rewrite !lookup_alter_eq, Hl. reflexivity. }
  { reflexivity. }
  { simpl. apply lookup_insert_eq. }
  exists s', sp', seen, c, (set_sampled (Sample (sampler (t_config (tr s))) seen) x).
  split; [exact Hrun|]. split; [exact Hl'|].
  split; [rewrite F1; reflexivity|]. split; [rewrite F2; reflexivity|].
  split; [rewrite F3; reflexivity|]. split; [rewrite F4; reflexivity|].
  split; [exact Hfresh|]. split; [exact F8|]. split; [reflexivity|].
  split.
  { intros k. rewrite F5. subst seen. simpl. rewrite lookup_insert.
    case_decide; reflexivity. }
  split; [exact F9|]. split; [exact F10|].
  split.
  - intros p Hne. rewrite (F6 p Hne). unfold SetTag. simpl.
    rewrite !lookup_alter_ne by congruence. reflexivity.
  - intros c' [y Hy]. rewrite F7.
    + simpl. apply lookup_insert_ne. intros ->. congruence.
    + intros ->. congruence.
Qed.

Lemma fresh_span_unused (s : state) : spans s !! fresh (dom (spans s)) = None.
Proof. apply not_elem_of_dom. apply is_fresh. Qed.

(** [startSpanCore] in all its cases: where the new span lives, what it
    holds, and what the call leaves alone. *)
Lemma startSpanCore_frame (operationName : string) (opts : StartSpanConfig)
    (io : ambient) (s : state) :
  parent_valid opts s →
  ∃ l s0 pre, startSpanCore operationName opts io s = Some (l, s0) ∧
    spans s !! l = None ∧ spans s0 !! l = Some pre ∧
    SpanID pre = random_Uint64 io ∧ Start pre = resolveStartTime opts io ∧
    finished pre = false ∧ tr s0 = tr s ∧
    (∀ p, p ≠ l → spans s0 !! p = spans s !! p) ∧
    (∀ c, is_Some (contexts s !! c) → contexts s0 !! c = contexts s !! c) ∧
    (localParent opts s = None →
       ∃ c ctx seen, context pre = Some c ∧ contexts s !! c = None ∧
         contexts s0 !! c = Some ctx ∧
         sampled ctx = Sample (sampler (t_config (tr s))) seen ∧
         events s0 = events s ++ [EvSample l seen]).
Proof.
  intros Hvalid. unfold parent_valid in Hvalid. unfold localParent, startSpanCore.
  set (l := fresh (dom (spans s))).
  assert (Hnew : spans s !! l = None) by apply fresh_span_unused.
  set (sp0 := spanDefaults (tr s) operationName (random_Uint64 io)
                           (resolveStartTime opts io)).
  destruct (resolveParent opts) as [c|] eqn:Hres; simpl.
  - destruct Hvalid as (ctx & Hctx & Hp).
    unfold linkParent. simpl. rewrite Hctx. simpl.
    destruct (ctx_span ctx) as [p|] eqn:Hspan; simpl.
    + destruct (Hp p eq_refl) as [par Hpar].
      assert (Hne : l ≠ p) by (apply fresh_span_ne; rewrite Hpar; eauto).
      rewrite lookup_insert_ne by exact Hne. rewrite Hpar. simpl.
      unfold newSpanContext. simpl.
      rewrite lookup_alter_eq, lookup_insert_eq. simpl.
      set (c' := fresh (dom (contexts s))).
      assert (Hc'new : contexts s !! c' = None)
        by (apply not_elem_of_dom; apply is_fresh).
      assert (Hc' : c' ≠ c) by (intros Heq; rewrite Heq in Hc'new; congruence).
      assert (Hframe : ∀ (g : span → span) (q : loc), q ≠ l →
                alter g l (<[l := sp0]> (spans s)) !! q = spans s !! q).
      { intros g q Hq. rewrite lookup_alter_ne by congruence.
        apply lookup_insert_ne. congruence. }
      destruct (Metrics par !! samplingPriorityKey) as [v|]; simpl;
        rewrite lookup_insert_ne by exact Hc'; rewrite Hctx; simpl;
        rewrite Hspan; simpl.
      * eexists l, _, _. split; [reflexivity|]. simpl.
        rewrite !lookup_alter_eq, lookup_insert_eq. simpl.
        split; [exact Hnew|]. split; [reflexivity|].
        repeat (split; [reflexivity|]).
        split; [intros q Hq; rewrite !lookup_alter_ne by congruence;
                apply lookup_insert_ne; congruence|].
        split; [|intros H; discriminate H].
        intros c0 [y Hy]. apply lookup_insert_ne. intros ->. congruence.
      * eexists l, _, _. split; [reflexivity|]. simpl.
        rewrite !lookup_alter_eq, lookup_insert_eq. simpl.
        split; [exact Hnew|]. split; [reflexivity|].
        repeat (split; [reflexivity|]).
        split; [intros q Hq; rewrite !lookup_alter_ne by congruence;
                apply lookup_insert_ne; congruence|].
        split; [|intros H; discriminate H].
        intros c0 [y Hy]. apply lookup_insert_ne. intros ->. congruence.
    + rewrite Hctx. simpl. rewrite Hspan. simpl.
      destruct (initRoot_frame l io
                  (upd_spans (alter (fun sp => set_ParentID (spanID ctx)
                                                 (set_TraceID (traceID ctx) sp)) l)
                     (upd_spans (<[l := sp0]>) s))
                  (set_ParentID (spanID ctx) (set_TraceID (traceID ctx) sp0)))
        as (s' & sp' & seen & c1 & ctx1 & Hrun & Hl' & G1 & G2 & G3 & G4 & G5 & G6
            & G7 & _ & G9 & G10 & G11 & G12).
      { simpl. rewrite lookup_alter_eq, lookup_insert_eq. reflexivity. }
      rewrite Hrun. simpl. exists l, s', sp'. split; [reflexivity|].
      split; [exact Hnew|]. split; [exact Hl'|].
      split; [rewrite G1; reflexivity|]. split; [rewrite G2; reflexivity|].
      split; [rewrite G3; reflexivity|]. split; [exact G10|].
      split; [intros q Hq; rewrite (G11 q Hq); simpl;
              rewrite lookup_alter_ne by congruence;
              apply lookup_insert_ne; congruence|].
      split; [exact G12|].
      intros _. exists c1, ctx1, seen. repeat (split; [assumption|]). exact G9.
  - destruct (initRoot_frame l io (upd_spans (<[l := sp0]>) s) sp0)
      as (s' & sp' & seen & c1 & ctx1 & Hrun & Hl' & G1 & G2 & G3 & G4 & G5 & G6
          & G7 & _ & G9 & G10 & G11 & G12).
    { simpl. apply lookup_insert_eq. }
    rewrite Hrun. simpl. exists l, s', sp'. split; [reflexivity|].
    split; [exact Hnew|]. split; [exact Hl'|].
    split; [rewrite G1; reflexivity|]. split; [rewrite G2; reflexivity|].
    split; [rewrite G3; reflexivity|]. split; [exact G10|].
    split; [intros q Hq; rewrite (G11 q Hq); simpl;
            apply lookup_insert_ne; congruence|].
    split; [exact G12|].
    intros _. exists c1, ctx1, seen. repeat (split; [assumption|]). exact G9.
Qed.

Lemma last_string_tag_step (k : string) (acc : option string)
    (tags : list (string * tagValue)) :
  foldl (fun a kv => match snd kv with
                     | TagString v => if decide (fst kv = k) then Some v else a
                     | TagNumber _ => a
                     end) acc tags
  = match last_string_tag k tags with
    | Some v => Some v
    | None => acc
    end.
Proof.
  unfold last_string_tag. revert acc.
  induction tags as [|[k0 v0] tags IH]; intros acc; simpl; [reflexivity|].
  rewrite IH. rewrite (IH (match v0 with
                           | TagString v => if decide (k0 = k) then Some v else None
                           | TagNumber _ => None
                           end)).
  destruct (foldl _ None tags); [reflexivity|].
  destruct v0; [case_decide|]; reflexivity.
Qed.

(** The two rounds of tags on the span at [l]: string tags land in [Meta],
    the last one under a key winning; the span keeps its identifier, start
    time, finished flag and context; everything else stays put. *)
Lemma applyTags_frame (tags : list (string * tagValue)) (l : loc) (s : state)
    (pre : span) :
  spans s !! l = Some pre →
  ∃ child, spans (applyTags tags l s) !! l = Some child ∧
    SpanID child = SpanID pre ∧ Start child = Start pre ∧
    finished child = finished pre ∧ context child = context pre ∧
    (∀ k, Meta child !! k = match last_string_tag k tags with
                            | Some v => Some v
                            | None => Meta pre !! k
                            end) ∧
    (∀ p, p ≠ l → spans (applyTags tags l s) !! p = spans s !! p) ∧
    contexts (applyTags tags l s) = contexts s ∧
    events (applyTags tags l s) = events s ∧
    tr (applyTags tags l s) = tr s.
Proof.
  unfold applyTags. revert s pre.
  induction tags as [|[k0 v0] tags IH]; intros s pre Hl; simpl.
  - exists pre. repeat split; try reflexivity. exact Hl.
  - destruct (IH (SetTag k0 v0 l s) (setTag k0 v0 pre))
      as (child & Hc & H1 & H2 & H3 & H4 & H5 & H6 & H7 & H8 & H9).
    { unfold SetTag. simpl. rewrite lookup_alter_eq, Hl. reflexivity. }
    exists child. split; [exact Hc|].
    split; [rewrite H1; destruct v0; reflexivity|].
    split; [rewrite H2; destruct v0; reflexivity|].
    split; [rewrite H3; destruct v0; reflexivity|].
    split; [rewrite H4; destruct v0; reflexivity|].
    split.
    { intros k. rewrite H5. unfold last_string_tag at 2. simpl.
      rewrite last_string_tag_step.
      destruct (last_string_tag k tags); [reflexivity|].
      destruct v0; simpl.
      - rewrite lookup_insert. repeat case_decide; congruence.
      - reflexivity. }
    split.
    { intros p Hne. rewrite (H6 p Hne). unfold SetTag. simpl.
      apply lookup_alter_ne. congruence. }
    repeat split; assumption.
Qed.

Lemma applyTags_app (tags tags' : list (string * tagValue)) (l : loc) (s : state) :
  applyTags tags' l (applyTags tags l s) = applyTags (tags ++ tags') l s.
Proof. unfold applyTags. symmetry. apply fold_left_app. Qed.

(** X14.  [StartSpan] works on a span of its own: the new span is allocated at an
    address that held nothing, and the call changes no span and no span
    context that existed before, the parent's included, nor the tracer. *)
Theorem StartSpan_touches_only_new_span (operationName : string)
    (options : list StartSpanOption) (io : ambient) (s : state) :
  let opts := fold_left (fun o fn => fn o) options zeroStartSpanConfig in
  parent_valid opts s →
  ∃ l s', StartSpan operationName options io s = Some (l, s') ∧
    spans s !! l = None ∧ is_Some (spans s' !! l) ∧
    (∀ p, p ≠ l → spans s' !! p = spans s !! p) ∧
    (∀ c, is_Some (contexts s !! c) → contexts s' !! c = contexts s !! c) ∧
    tr s' = tr s.
Proof.
  intros opts Hvalid.
  destruct (startSpanCore_frame operationName opts io s Hvalid)
    as (l & s0 & pre & Hcore & Hnew & Hpre & _ & _ & _ & Htr & Hsp & Hctx & _).
  unfold StartSpan. fold opts. rewrite Hcore. simpl.
  rewrite applyTags_app.
  destruct (applyTags_frame (cfg_Tags opts ++ globalTags (t_config (tr s))) l s0 pre Hpre)
    as (child & Hchild & _ & _ & _ & _ & _ & Hsp' & Hctx' & _ & Htr').
  eexists l, _. split; [reflexivity|].
  split; [exact Hnew|]. split; [eauto|].
  split; [intros p Hne; rewrite (Hsp' p Hne); apply Hsp; exact Hne|].
  split; [intros c Hc; rewrite Hctx'; apply Hctx; exact Hc|].
  congruence.
Qed.

(** X15.  The span [StartSpan] returns is not finished, carries the identifier
    drawn for it, and starts at the explicit start time when the options
    give one and at the current time otherwise, whatever its parent. *)
Theorem StartSpan_identifier_and_start_time (operationName : string)
    (options : list StartSpanOption) (io : ambient) (s : state) :
  let opts := fold_left (fun o fn => fn o) options zeroStartSpanConfig in
  parent_valid opts s →
  ∃ l s' child, StartSpan operationName options io s = Some (l, s') ∧
    spans s' !! l = Some child ∧
    SpanID child = random_Uint64 io ∧
    Start child = match cfg_StartTime opts with
                  | Some t => t
                  | None => now io
                  end ∧
    finished child = false.
Proof.
  intros opts Hvalid.
  destruct (startSpanCore_frame operationName opts io s Hvalid)
    as (l & s0 & pre & Hcore & _ & Hpre & Hid & Hstart & Hfin & _).
  unfold StartSpan. fold opts. rewrite Hcore. simpl.
  rewrite applyTags_app.
  destruct (applyTags_frame (cfg_Tags opts ++ globalTags (t_config (tr s))) l s0 pre Hpre)
    as (child & Hchild & H1 & H2 & H3 & _).
  eexists l, _, child. split; [reflexivity|]. split; [exact Hchild|].
  split; [congruence|]. split; [|congruence].
  rewrite H2, Hstart. unfold resolveStartTime. destruct (cfg_StartTime opts); reflexivity.
Qed.

(** X16.  The context of a process root records the sampler's verdict: when the
    parent option leads to no local span, the span returned has a context
    allocated by this call, and that context's [sampled] flag is what the
    sampler answered for this span, the one time it was asked. *)
Theorem StartSpan_root_records_decision (operationName : string)
    (options : list StartSpanOption) (io : ambient) (s : state) :
  let opts := fold_left (fun o fn => fn o) options zeroStartSpanConfig in
  parent_valid opts s → localParent opts s = None →
  ∃ l s' child c ctx seen, StartSpan operationName options io s = Some (l, s') ∧
    spans s' !! l = Some child ∧ context child = Some c ∧
    contexts s !! c = None ∧ contexts s' !! c = Some ctx ∧
    sampled ctx = Sample (sampler (t_config (tr s))) seen ∧
    sampler_calls (events s') = sampler_calls (events s) ++ [(l, seen)].
Proof.
  intros opts Hvalid Hroot.
  destruct (startSpanCore_frame operationName opts io s Hvalid)
    as (l & s0 & pre & Hcore & _ & Hpre & _ & _ & _ & _ & _ & _ & Hrootcase).
  destruct (Hrootcase Hroot) as (c & ctx & seen & Hc & Hcnew & Hctx & Hflag & Hev).
  unfold StartSpan. fold opts. rewrite Hcore. simpl.
  rewrite applyTags_app.
  destruct (applyTags_frame (cfg_Tags opts ++ globalTags (t_config (tr s))) l s0 pre Hpre)
    as (child & Hchild & _ & _ & _ & H4 & _ & _ & Hctx' & Hev' & _).
  eexists l, _, child, c, ctx, seen. split; [reflexivity|].
  split; [exact Hchild|]. split; [congruence|]. split; [exact Hcnew|].
  split; [rewrite Hctx'; exact Hctx|]. split; [exact Hflag|].
  rewrite Hev', Hev. apply sampler_calls_snoc.
Qed.

End Tracer.

(** ** The statements at sample inputs *)

(** C1, as stated, fails on the machine [newTracer] leaves: the payload is
    empty, [flushTraces] returns the machine untouched, and no payload has
    been handed to the transport. *)
Lemma flushTraces_empty_payload_not_sent :
  flushTraces (idleState okTransport) = Returns (idleState okTransport) ∧
  ¬ (∃ s', flushTraces (idleState okTransport) = Returns s' ∧
           sent_payloads (events s') =
             sent_payloads (events (idleState okTransport))
             ++ [t_payload (tr (idleState okTransport))]).
Proof.
  split; [reflexivity|].
  intros (s' & Hrun & Hsent).
  change (flushTraces (idleState okTransport)) with (Returns (idleState okTransport)) in Hrun.
  injection Hrun as <-. discriminate Hsent.
Qed.

(** C5 on the idle machine: the trace is queued and the call returns. *)
Lemma pushTrace_nonblocking_witness :
  syncPush (tr (idleState okTransport)) = false ∧
  ∃ s', pushTrace [1%positive] (idleState okTransport) = Returns s' ∧
        chan_buf (traceBuffer (tr s')) = [[1%positive]].
Proof.
  split; [reflexivity|].
  destruct (pushTrace_nonblocking [1%positive] (idleState okTransport) eq_refl)
    as (s' & Hrun & Hroom & _).
  exists s'. split; [exact Hrun|].
  apply Hroom. vm_compute. lia.
Defined.


(** C7 with a sampler of rate 0.5 that keeps every span. *)
Lemma sample_applied_rate_witness :
  spans familyState !! 1%positive = Some parentSpan ∧
  context parentSpan = Some 1%positive ∧
  contexts familyState !! 1%positive = Some parentContext ∧
  ∃ s' sp', sample 1%positive familyState = Some s' ∧
            spans s' !! 1%positive = Some sp' ∧
            Metrics sp' !! sampleRateMetricKey = Some 0.5%float.
Proof.
  assert (H1 : spans familyState !! 1%positive = Some parentSpan) by reflexivity.
  assert (H2 : context parentSpan = Some 1%positive) by reflexivity.
  assert (H3 : contexts familyState !! 1%positive = Some parentContext) by reflexivity.
  repeat (split; [assumption|]).
  destruct (sample_applied_rate 1%positive 1%positive parentSpan parentContext
              familyState H1 H2 H3)
    as (s' & sp' & Hrun & Hl & Hrate & _).
  exists s', sp'. split; [exact Hrun|]. split; [exact Hl|].
  apply Hrate; reflexivity.
Defined.


(** C3 for a span continued from the extracted context of trace 7. *)
Lemma StartSpan_remote_parent_witness :
  cfg_Parent (fold_left (fun o fn => fn o)
                [withParent (OwnContext (Some 1%positive))] zeroStartSpanConfig)
    = Some (OwnContext (Some 1%positive)) ∧
  contexts remoteState !! 1%positive = Some remoteContext ∧
  ctx_span remoteContext = None ∧
  ∃ l s' child,
    StartSpan "_prio" "system.pid" "http.handler"
              [withParent (OwnContext (Some 1%positive))] firstCall remoteState
      = Some (l, s') ∧
    spans s' !! l = Some child ∧ TraceID child = 7 ∧ ParentID child = 3.
Proof.
  assert (H1 : cfg_Parent (fold_left (fun o fn => fn o)
                [withParent (OwnContext (Some 1%positive))] zeroStartSpanConfig)
               = Some (OwnContext (Some 1%positive))) by reflexivity.
  assert (H2 : contexts remoteState !! 1%positive = Some remoteContext) by reflexivity.
  assert (H3 : ctx_span remoteContext = None) by reflexivity.
  repeat (split; [assumption|]).
  exact (StartSpan_remote_parent "_prio" "system.pid" "http.handler"
           [withParent (OwnContext (Some 1%positive))] firstCall remoteState
           1%positive remoteContext H1 H2 H3).
Defined.

(** C10 for a parent option of another implementation. *)
Lemma StartSpan_foreign_parent_witness :
  cfg_Parent (fold_left (fun o fn => fn o)
                [withParent ForeignContext] zeroStartSpanConfig)
    = Some ForeignContext ∧
  ∃ l s' child,
    StartSpan "_prio" "system.pid" "job" [withParent ForeignContext]
              firstCall familyState = Some (l, s') ∧
    spans s' !! l = Some child ∧
    ParentID child = 0 ∧ SpanID child = 42 ∧ TraceID child = 42.
Proof.
  assert (H1 : cfg_Parent (fold_left (fun o fn => fn o)
                [withParent ForeignContext] zeroStartSpanConfig)
               = Some ForeignContext) by reflexivity.
  split; [exact H1|].
  destruct (StartSpan_foreign_parent "_prio" "system.pid" "job"
              [withParent ForeignContext] firstCall familyState H1)
    as (l & s0 & pre & seen & s' & child & _ & _ & _ & Hrun & Hl & _ & Hp & Hi & Ht & _).
  exists l, s', child. repeat split; try assumption.
  rewrite Ht. exact Hi.
Defined.

(** C4 as amended, for a child of a local span: the sampler is not
    consulted. *)
Lemma StartSpan_samples_process_roots_witness :
  parent_valid (fold_left (fun o fn => fn o)
                  [withParent (OwnContext (Some 1%positive))] zeroStartSpanConfig)
               familyState ∧
  ∃ l s',
    StartSpan "_prio" "system.pid" "db.query"
              [withParent (OwnContext (Some 1%positive))] firstCall familyState
      = Some (l, s') ∧
    sampler_calls (events s') = [].
Proof.
  assert (H1 : parent_valid (fold_left (fun o fn => fn o)
                  [withParent (OwnContext (Some 1%positive))] zeroStartSpanConfig)
               familyState).
  { exists parentContext. split; [reflexivity|].
    intros p [= <-]. exists parentSpan. reflexivity. }
  split; [exact H1|].
  exact (StartSpan_samples_process_roots "_prio" "system.pid" "db.query"
           [withParent (OwnContext (Some 1%positive))] firstCall familyState H1).
Defined.

(** C4, as stated, fails on two requests that continue the same remote
    trace: each new span is a process root, so trace 7 receives two
    sampling decisions in this process. *)
Lemma remote_trace_sampled_twice :
  (fun s => sampling_decisions 7 (events s)) <$> twoRemoteRequests "_prio" "system.pid"
    = Some 2%nat.
Proof. vm_compute. reflexivity. Qed.

(** The tags come after the linkage: a numeric start-option tag under the
    priority key replaces the value copied from the parent (2 here). *)
Lemma option_tag_replaces_copied_priority :
  (fun r => spans (snd r) !! fst r ≫= fun sp => Metrics sp !! "_prio")
    <$> StartSpan "_prio" "system.pid" "db.query"
          [withParent (OwnContext (Some 1%positive)); withTag "_prio" (TagNumber 9)]
          firstCall familyState
  = Some (Some 9%float).
Proof. vm_compute. reflexivity. Qed.

(** ** Further statements at sample inputs *)

(** On the idle machine the 101st error record in a row raises the request. *)
Lemma pushError_requests_flush_once_witness :
  chan_cap (flushErrorsReq (tr (idleState okTransport))) = 1%nat ∧
  chan_buf (flushErrorsReq (tr (idleState okTransport))) = [] ∧
  chan_buf (flushErrorsReq
              (tr (run_calls countingEncoder
                             (map CallPushError (replicate 101 (encodingError "eof")))
                             (idleState okTransport)))) = [tt].
Proof.
  split; [reflexivity|]. split; [reflexivity|].
  rewrite (pushError_requests_flush_once countingEncoder
             (replicate 101 (encodingError "eof"))
             (idleState okTransport) eq_refl eq_refl).
  reflexivity.
Defined.

(** A stopped machine under pushes, worker turns, a forced flush and Stop. *)
Lemma stopped_tracer_is_inert_witness :
  stopped (tr stoppedState) = true ∧
  events (run_calls countingEncoder
            [CallPushTrace [1%positive]; CallWorker CaseTrace; CallForceFlush; CallStop]
            stoppedState) = events stoppedState.
Proof.
  split; [reflexivity|].
  apply (stopped_tracer_is_inert countingEncoder
           [CallPushTrace [1%positive]; CallWorker CaseTrace; CallForceFlush; CallStop]
           stoppedState eq_refl).
Defined.

(** Three calls of Stop with a push in between, from the idle machine. *)
Lemma exit_requested_at_most_once_witness :
  stopped (tr (idleState okTransport)) = false ∧
  exit_requests (events (idleState okTransport)) = 0%nat ∧
  exit_requests
    (events (run_calls countingEncoder
               [CallStop; CallPushTrace [1%positive]; CallStop; CallStop]
               (idleState okTransport))) = 1%nat.
Proof.
  split; [reflexivity|]. split; [reflexivity|].
  rewrite (exit_requested_at_most_once countingEncoder
             [CallStop; CallPushTrace [1%positive]; CallStop; CallStop]
             (idleState okTransport) eq_refl eq_refl).
  reflexivity.
Defined.

(** A loaded payload against a collector that is down: sent twice, kept. *)
Lemma failed_flush_is_retried_witness :
  payload_itemCount (t_payload (tr (loadedState downTransport))) ≠ 0%nat ∧
  sent_payloads
    (events (outcome_state
               (flushTraces (outcome_state (flushTraces (loadedState downTransport))))))
  = sent_payloads (events (loadedState downTransport))
    ++ [t_payload (tr (loadedState downTransport));
        t_payload (tr (loadedState downTransport))].
Proof.
  assert (Hn : payload_itemCount (t_payload (tr (loadedState downTransport))) ≠ 0%nat)
    by discriminate.
  split; [exact Hn|].
  apply (failed_flush_is_retried (loadedState downTransport) "connection refused"
           Hn eq_refl).
Defined.

(** A loaded payload against a collector that answers: the second flush is
    a no-op. *)
Lemma delivered_payload_is_not_resent_witness :
  send (cfg_transport (t_config (tr (loadedState okTransport))))
       (sent_payloads (events (loadedState okTransport)))
       (t_payload (tr (loadedState okTransport))) = None ∧
  flushTraces (outcome_state (flushTraces (loadedState okTransport)))
  = Returns (outcome_state (flushTraces (loadedState okTransport))).
Proof.
  split; [reflexivity|].
  apply (delivered_payload_is_not_resent (loadedState okTransport)).
  right. reflexivity.
Defined.

(** A full flush against a collector that is down logs the refusal. *)
Lemma flush_logs_its_own_failure_witness :
  payload_itemCount (t_payload (tr (loadedState downTransport))) ≠ 0%nat ∧
  ∃ s', flush (loadedState downTransport) = Returns s' ∧
        chan_buf (errorBuffer (tr s')) = [] ∧
        t_payload (tr s') = t_payload (tr (loadedState downTransport)).
Proof.
  assert (Hn : payload_itemCount (t_payload (tr (loadedState downTransport))) ≠ 0%nat)
    by discriminate.
  split; [exact Hn|].
  destruct (flush_logs_its_own_failure (loadedState downTransport) "connection refused"
              Hn eq_refl) as (s' & before & Hrun & _ & Hempty & Hkept).
  exists s'. split; [exact Hrun|]. split; [exact Hempty|exact Hkept].
Defined.

(** Stop with one trace still queued. *)
Lemma Stop_leaves_queued_traces_witness :
  stopped (tr queuedState) = false ∧
  traceBuffer (tr (outcome_state (Stop countingEncoder [] queuedState)))
  = traceBuffer (tr queuedState).
Proof.
  split; [reflexivity|].
  apply (Stop_leaves_queued_traces countingEncoder queuedState eq_refl).
Defined.

(** One six-million-byte trace is flushed by the worker's next turn. *)
Lemma oversize_payload_is_flushed_eagerly_witness :
  chan_buf (traceBuffer (tr queuedState)) = [[1%positive]] ∧
  bulkyEncoder (trace_spans queuedState [1%positive]) = inl 6000000 ∧
  payloadSizeLimit < payload_size (t_payload (tr queuedState)) + 6000000 ∧
  chan_buf (flushTracesReq
              (tr (worker_run bulkyEncoder [CaseTrace; CaseFlushTraces] queuedState)))
  = [].
Proof.
  assert (Hbig : payloadSizeLimit < payload_size (t_payload (tr queuedState)) + 6000000)
    by reflexivity.
  split; [reflexivity|]. split; [reflexivity|]. split; [exact Hbig|].
  apply (oversize_payload_is_flushed_eagerly bulkyEncoder queuedState [1%positive] []
           6000000 eq_refl eq_refl Hbig eq_refl).
  simpl. lia.
Defined.


(** A child started under the local span: the parent is left as it was. *)
Lemma StartSpan_touches_only_new_span_witness :
  parent_valid (fold_left (fun o fn => fn o)
                  [withParent (OwnContext (Some 1%positive))] zeroStartSpanConfig)
               familyState ∧
  ∃ l s',
    StartSpan "_prio" "system.pid" "db.query"
              [withParent (OwnContext (Some 1%positive))] firstCall familyState
      = Some (l, s') ∧
    l ≠ 1%positive ∧ spans s' !! 1%positive = Some parentSpan.
Proof.
  assert (H1 : parent_valid (fold_left (fun o fn => fn o)
                  [withParent (OwnContext (Some 1%positive))] zeroStartSpanConfig)
               familyState).
  { exists parentContext. split; [reflexivity|].
    intros p [= <-]. exists parentSpan. reflexivity. }
  split; [exact H1|].
  destruct (StartSpan_touches_only_new_span "_prio" "system.pid" "db.query"
              [withParent (OwnContext (Some 1%positive))] firstCall familyState H1)
    as (l & s' & Hrun & Hnew & _ & Hframe & _).
  assert (Hne : l ≠ 1%positive) by (intros ->; discriminate Hnew).
  exists l, s'. split; [exact Hrun|]. split; [exact Hne|].
  rewrite Hframe by (intros Heq; apply Hne; symmetry; exact Heq). reflexivity.
Defined.

(** A span started with an explicit start time of 77. *)
Lemma StartSpan_identifier_and_start_time_witness :
  parent_valid (fold_left (fun o fn => fn o)
                  [fun o => mkStartSpanConfig (cfg_Parent o) (Some 77) (cfg_Tags o)]
                  zeroStartSpanConfig)
               familyState ∧
  ∃ l s' child,
    StartSpan "_prio" "system.pid" "job"
              [fun o => mkStartSpanConfig (cfg_Parent o) (Some 77) (cfg_Tags o)]
              firstCall familyState = Some (l, s') ∧
    spans s' !! l = Some child ∧ SpanID child = 42 ∧ Start child = 77 ∧
    finished child = false.
Proof.
  assert (H1 : parent_valid (fold_left (fun o fn => fn o)
                  [fun o => mkStartSpanConfig (cfg_Parent o) (Some 77) (cfg_Tags o)]
                  zeroStartSpanConfig) familyState) by exact I.
  split; [exact H1|].
  exact (StartSpan_identifier_and_start_time "_prio" "system.pid" "job"
           [fun o => mkStartSpanConfig (cfg_Parent o) (Some 77) (cfg_Tags o)]
           firstCall familyState H1).
Defined.

(** A span continued from the extracted context: a root with a verdict. *)
Lemma StartSpan_root_records_decision_witness :
  parent_valid (fold_left (fun o fn => fn o)
                  [withParent (OwnContext (Some 1%positive))] zeroStartSpanConfig)
               remoteState ∧
  localParent (fold_left (fun o fn => fn o)
                 [withParent (OwnContext (Some 1%positive))] zeroStartSpanConfig)
              remoteState = None ∧
  ∃ l s' child c ctx,
    StartSpan "_prio" "system.pid" "http.handler"
              [withParent (OwnContext (Some 1%positive))] firstCall remoteState
      = Some (l, s') ∧
    spans s' !! l = Some child ∧ context child = Some c ∧
    contexts s' !! c = Some ctx.
Proof.
  assert (H1 : parent_valid (fold_left (fun o fn => fn o)
                  [withParent (OwnContext (Some 1%positive))] zeroStartSpanConfig)
               remoteState).
  { exists remoteContext. split; [reflexivity|]. intros p [=]. }
  assert (H2 : localParent (fold_left (fun o fn => fn o)
                 [withParent (OwnContext (Some 1%positive))] zeroStartSpanConfig)
              remoteState = None) by reflexivity.
  split; [exact H1|]. split; [exact H2|].
  destruct (StartSpan_root_records_decision "_prio" "system.pid" "http.handler"
              [withParent (OwnContext (Some 1%positive))] firstCall remoteState H1 H2)
    as (l & s' & child & c & ctx & seen & Hrun & Hl & Hc & _ & Hctx & _).
  exists l, s', child, c, ctx. repeat split; assumption.
Defined.
